(** * learnAI backend: segment reconciliation and quiz formatting

    A shallow embedding of the request handlers of [backend/main.py]
    ([generate_lesson], from the two parsed pipeline outputs onwards, and
    the question formatting loop of [generate_quiz]), together with the
    part of Python's [base64] module the lesson handler calls.

    Conventions.
    - Python [str] values are Rocq [string]s; a character stands for the
      code point of the same number, so exactly the code points below 256
      are representable and the ASCII ones are those below 128.
    - Python [bytes] values are [list byte].
    - JSON numbers that the handler reads ([segment_id], [duration]) are
      integers ([Z]); [segment_id] is typed as in the data model of the
      service (an integer, or absent / [null]).
    - A Python [dict] used as a map from identifiers is a [gmap Z _];
      [set] is a [gset Z]; [sorted] is a stable insertion sort.
    - A raised exception is the [Raise] result of a small error monad;
      an early [return JSONResponse(...)] is the [JSONResponse] case of
      the handler's result.  Logging is not modelled. *)

From Stdlib Require Import ZArith NArith List Ascii String Lia Permutation Sorted.
From Stdlib.Strings Require Import Byte.
From stdpp Require Import base option list gmap sets sorting strings.

Local Open Scope string_scope.
Local Open Scope list_scope.

(** ** Exceptions and the error monad *)

(** The exceptions the modelled code can raise.  All of them are instances
    of [Exception], which is all the handler's last [except] clause tests. *)
Inductive exn : Type :=
  | ValueError_non_ascii          (* base64: "string argument should contain only ASCII characters" *)
  | binascii_Error_invalid_length (* "number of data characters cannot be 1 more than a multiple of 4" *)
  | binascii_Error_incorrect_padding. (* "Incorrect padding" *)

Inductive result (A : Type) : Type :=
  | Ok (a : A)
  | Raise (e : exn).
Arguments Ok {A} a.
Arguments Raise {A} e.

Global Instance result_ret : MRet result := fun _ a => Ok a.
Global Instance result_bind : MBind result := fun _ _ f r =>
  match r with
  | Ok a => f a
  | Raise e => Raise e
  end.

Definition is_Ok {A} (r : result A) : Prop := exists a, r = Ok a.

Definition result_to_option {A} (r : result A) : option A :=
  match r with
  | Ok a => Some a
  | Raise _ => None
  end.

(** ** Python's [base64.b64encode] and [base64.b64decode]

    The handler calls the two library functions with their default
    arguments.  [b64encode] is RFC 4648 base64 with padding; [b64decode]
    with [validate=False] first turns a [str] argument into ASCII bytes
    and then runs binascii's non-strict decoder (as in CPython 3.11 and
    later), which skips characters outside the alphabet and stops at the
    first complete padding. *)
Module Base64.

Definition alphabet : list ascii :=
  list_ascii_of_string
    "ABCDEFGHIJKLMNOPQRSTUVWXYZabcdefghijklmnopqrstuvwxyz0123456789+/".

Definition BASE64_PAD : ascii := "="%char.

Definition table_b2a_base64 (n : N) : ascii :=
  nth (N.to_nat n) alphabet "A"%char.

Fixpoint index_of (c : ascii) (l : list ascii) (i : N) : option N :=
  match l with
  | [] => None
  | x :: l' => if Ascii.eqb x c then Some i else index_of c l' (N.succ i)
  end.

Definition table_a2b_base64 (c : ascii) : option N := index_of c alphabet 0%N.

(** An assignment to an [unsigned char] of the output buffer. *)
Definition to_byte (n : N) : byte :=
  match Byte.of_N (n mod 256) with
  | Some b => b
  | None => x00
  end.

Fixpoint b2a_base64 (data : list byte) : string :=
  match data with
  | [] => EmptyString
  | [a] =>
      let a := Byte.to_N a in
      String (table_b2a_base64 (N.shiftr a 2))
        (String (table_b2a_base64 (N.shiftl (N.land a 3) 4))
           (String BASE64_PAD (String BASE64_PAD EmptyString)))
  | [a; b] =>
      let a := Byte.to_N a in
      let b := Byte.to_N b in
      String (table_b2a_base64 (N.shiftr a 2))
        (String (table_b2a_base64 (N.lor (N.shiftl (N.land a 3) 4) (N.shiftr b 4)))
           (String (table_b2a_base64 (N.shiftl (N.land b 15) 2))
              (String BASE64_PAD EmptyString)))
  | a :: b :: c :: rest =>
      let a := Byte.to_N a in
      let b := Byte.to_N b in
      let c := Byte.to_N c in
      String (table_b2a_base64 (N.shiftr a 2))
        (String (table_b2a_base64 (N.lor (N.shiftl (N.land a 3) 4) (N.shiftr b 4)))
           (String (table_b2a_base64 (N.lor (N.shiftl (N.land b 15) 2) (N.shiftr c 6)))
              (String (table_b2a_base64 (N.land c 63)) (b2a_base64 rest))))
  end.

(** [base64.b64encode(s)]; the handler decodes the resulting bytes as
    UTF-8, which is the identity on the ASCII output. *)
Definition b64encode (s : list byte) : string := b2a_base64 s.

(** The loop of [binascii.a2b_base64] in non-strict mode.  [bin_data]
    is the output written so far. *)
Fixpoint a2b_loop (ascii_data : string) (quad_pos : nat) (leftchar : N)
    (pads : nat) (bin_data : list byte) : result (list byte) :=
  match ascii_data with
  | EmptyString =>
      match quad_pos with
      | O => Ok bin_data
      | 1%nat => Raise binascii_Error_invalid_length
      | _ => Raise binascii_Error_incorrect_padding
      end
  | String this_ch rest =>
      if Ascii.eqb this_ch BASE64_PAD then
        if (2 <=? quad_pos)%nat then
          if (4 <=? quad_pos + S pads)%nat then Ok bin_data
          else a2b_loop rest quad_pos leftchar (S pads) bin_data
        else a2b_loop rest quad_pos leftchar pads bin_data
      else
        match table_a2b_base64 this_ch with
        | None => a2b_loop rest quad_pos leftchar pads bin_data
        | Some v =>
            match quad_pos with
            | O => a2b_loop rest 1 v 0 bin_data
            | 1%nat =>
                a2b_loop rest 2 (N.land v 15) 0
                  (bin_data ++ [to_byte (N.lor (N.shiftl leftchar 2) (N.shiftr v 4))])
            | 2%nat =>
                a2b_loop rest 3 (N.land v 3) 0
                  (bin_data ++ [to_byte (N.lor (N.shiftl leftchar 4) (N.shiftr v 2))])
            | _ =>
                a2b_loop rest 0 0 0
                  (bin_data ++ [to_byte (N.lor (N.shiftl leftchar 6) v)])
            end
        end
  end.

Definition a2b_base64 (data : string) : result (list byte) :=
  a2b_loop data 0 0 0 [].

Definition is_ascii (c : ascii) : bool := (N_of_ascii c <? 128)%N.

Fixpoint all_ascii (s : string) : bool :=
  match s with
  | EmptyString => true
  | String c rest => is_ascii c && all_ascii rest
  end.

(** [base64.b64decode(s)] for a [str] argument [s]. *)
Definition b64decode (s : string) : result (list byte) :=
  if all_ascii s then a2b_base64 s else Raise ValueError_non_ascii.

(** Boolean checks of the tables and of the bit arithmetic of a group,
    run on all sextets and on all byte values in the proofs. *)
Section Checks.
Local Open Scope N_scope.

Definition sextet_ok (n : N) : bool :=
  match table_a2b_base64 (table_b2a_base64 n) with
  | Some m => m =? n
  | None => false
  end
  && negb (Ascii.eqb (table_b2a_base64 n) BASE64_PAD)
  && is_ascii (table_b2a_base64 n).

Definition group12_ok (a b : N) : bool :=
  let s1 := N.shiftr a 2 in
  let s2 := N.lor (N.shiftl (N.land a 3) 4) (N.shiftr b 4) in
  (s1 <? 64) && (s2 <? 64)
  && (N.lor (N.shiftl s1 2) (N.shiftr s2 4) mod 256 =? a)
  && (N.land s2 15 =? N.shiftr b 4)
  && (N.shiftl (N.land a 3) 4 <? 64)
  && (N.lor (N.shiftl s1 2) (N.shiftr (N.shiftl (N.land a 3) 4) 4) mod 256 =? a).

Definition group23_ok (b c : N) : bool :=
  let s3 := N.lor (N.shiftl (N.land b 15) 2) (N.shiftr c 6) in
  let s4 := N.land c 63 in
  (s3 <? 64) && (s4 <? 64)
  && (N.lor (N.shiftl (N.shiftr b 4) 4) (N.shiftr s3 2) mod 256 =? b)
  && (N.lor (N.shiftl (N.land s3 3) 6) s4 mod 256 =? c)
  && (N.shiftl (N.land b 15) 2 <? 64)
  && (N.lor (N.shiftl (N.shiftr b 4) 4) (N.shiftr (N.shiftl (N.land b 15) 2) 2) mod 256 =? b).

End Checks.

End Base64.

(** ** Data model *)

(** The [audio_base64] field of a segment record, as far as the handler
    inspects it: its truth value, and whether it is a [str] or a [list]
    (of [str] chunks). *)
Inductive audio_field : Type :=
  | AudioAbsent                         (* key missing, or JSON null *)
  | AudioStr (s : string)               (* a single string *)
  | AudioChunks (chunks : list string)  (* a list of chunks *)
  | AudioOther (truthy : bool).         (* any other JSON value *)

(** One element of a [segments] array.  [None] in a field is a missing
    key ([seg.get] returns [None], or its default); for [segment_id] it
    also stands for JSON null. *)
Record SegmentRecord : Type := {
  segment_id : option Z;
  audio_base64 : audio_field;
  narration : option string;
  image_url : option string;
  duration : option Z
}.

(** The [segments] value of a parsed output. *)
Inductive segments_value : Type :=
  | SegmentsNotList
  | SegmentsList (segs : list SegmentRecord).

(** A parsed [output]: a dict whose keys [topic] and [segments] may be
    missing ([None]). *)
Record ParsedOutput : Type := {
  topic : option string;
  segments : option segments_value
}.

(** Values of [audio_segments_map]. *)
Record AudioData : Type := {
  ad_audio_base64 : string;
  ad_audio_length : nat
}.

(** Values of [content_segments_map]. *)
Record ContentData : Type := {
  cd_narration : string;
  cd_image_url : option string;
  cd_duration : option Z
}.

(** An element of [combined_segments]. *)
Record CombinedSegment : Type := {
  cs_segment_id : Z;
  audioBase64 : string;
  imageUrl : option string;
  cs_narration : string;
  cs_duration : option Z
}.

Record LessonData : Type := {
  ld_topic : string;
  ld_segments : list CombinedSegment
}.

(** The [error] bodies of the handlers' [JSONResponse]s. *)
Inductive api_error : Type :=
  | SegmentsNotAList (idx : nat)     (* "result[idx].output.segments is not a list" *)
  | SegmentsEmpty (idx : nat)        (* "result[idx].output.segments is empty" *)
  | NoAudioFound                     (* "neither result contains audio_base64" *)
  | NoValidSegments                  (* "No valid segments could be created from API response" *)
  | InternalServerError (e : exn)    (* "Internal server error: ..." *)
  | NoQuizArray                      (* "No 'quiz' array found in response" *)
  | NoValidQuestions.                (* "No valid questions found in quiz" *)

(** What a handler returns: a body (status 200) or an error response. *)
Inductive response (A : Type) : Type :=
  | Success (body : A)
  | JSONResponse (status_code : Z) (error : api_error).
Arguments Success {A} body.
Arguments JSONResponse {A} status_code error.

(** ** [sorted] and [list.sort] *)

Fixpoint insert_by {A} (key : A -> Z) (x : A) (l : list A) : list A :=
  match l with
  | [] => [x]
  | y :: l' => if (key x <=? key y)%Z then x :: l else y :: insert_by key x l'
  end.

(** A stable sort by ascending key, as Python's [sorted(l, key=key)]. *)
Definition sorted_by {A} (key : A -> Z) (l : list A) : list A :=
  foldr (insert_by key) [] l.

Definition sorted (l : list Z) : list Z := sorted_by (fun x => x) l.

(** ** [generate_lesson]: from the parsed outputs to the response *)

(** [parsed_result.get("segments", [])] *)
Definition get_segments (parsed : ParsedOutput) : segments_value :=
  default (SegmentsList []) (segments parsed).

(** The body of the validation loop, for one [(segs, idx)]. *)
Definition check_segments (segs : segments_value) (idx : nat)
    : option (response LessonData) :=
  match segs with
  | SegmentsNotList => Some (JSONResponse 500 (SegmentsNotAList idx))
  | SegmentsList l =>
      if (length l =? 0)%nat then Some (JSONResponse 500 (SegmentsEmpty idx))
      else None
  end.

(** [for segs, idx in [(segments0, 0), (segments1, 1)]: ...] *)
Fixpoint validate_segments (l : list (segments_value * nat))
    : option (response LessonData) :=
  match l with
  | [] => None
  | (segs, idx) :: rest =>
      match check_segments segs idx with
      | Some r => Some r
      | None => validate_segments rest
      end
  end.

(** The list behind a [segments] value that passed validation. *)
Definition segments_list (segs : segments_value) : list SegmentRecord :=
  match segs with
  | SegmentsList l => l
  | SegmentsNotList => []
  end.

(** Python truth value of [seg.get("audio_base64")]. *)
Definition truthy_audio (a : audio_field) : bool :=
  match a with
  | AudioAbsent => false
  | AudioStr s => negb (String.eqb s "")
  | AudioChunks chunks => negb (length chunks =? 0)%nat
  | AudioOther t => t
  end.

Definition has_audio_base64 (segments : list SegmentRecord) : bool :=
  existsb (fun seg => truthy_audio (audio_base64 seg)) (take 5 segments).

Record Roles : Type := {
  audio_result_index : nat;
  content_result_index : nat;
  audio_segments : list SegmentRecord;
  content_segments : list SegmentRecord;
  audio_parsed : ParsedOutput;
  content_parsed : ParsedOutput
}.

(** Step 2: which result is the audio one.  [None] is the branch that
    returns the "neither result contains audio_base64" response. *)
Definition detect_roles (parsed_result0 parsed_result1 : ParsedOutput)
    (segments0 segments1 : list SegmentRecord) : option Roles :=
  let result0_has_audio := has_audio_base64 segments0 in
  let result1_has_audio := has_audio_base64 segments1 in
  if result0_has_audio && negb result1_has_audio then
    Some {| audio_result_index := 0; content_result_index := 1;
            audio_segments := segments0; content_segments := segments1;
            audio_parsed := parsed_result0; content_parsed := parsed_result1 |}
  else if result1_has_audio && negb result0_has_audio then
    Some {| audio_result_index := 1; content_result_index := 0;
            audio_segments := segments1; content_segments := segments0;
            audio_parsed := parsed_result1; content_parsed := parsed_result0 |}
  else if result0_has_audio && result1_has_audio then
    Some {| audio_result_index := 0; content_result_index := 1;
            audio_segments := segments0; content_segments := segments1;
            audio_parsed := parsed_result0; content_parsed := parsed_result1 |}
  else None.

(** [for chunk in audio_base64: combined_binary += base64.b64decode(str(chunk))] *)
Fixpoint decode_chunks (chunks : list string) (combined_binary : list byte)
    : result (list byte) :=
  match chunks with
  | [] => Ok combined_binary
  | chunk :: rest =>
      decoded ← Base64.b64decode chunk;
      decode_chunks rest (combined_binary ++ decoded)
  end.

(** The chunk combiner: decode each chunk, join the bytes, encode once. *)
Definition combine_chunks (chunks : list string) : result string :=
  combined_binary ← decode_chunks chunks [];
  Ok (Base64.b64encode combined_binary).

(** Step 3, the body of the loop over [audio_segments]. *)
Definition map_audio_segment (audio_segments_map : gmap Z AudioData)
    (seg : SegmentRecord) : result (gmap Z AudioData) :=
  match segment_id seg with
  | None => Ok audio_segments_map
  | Some sid =>
      if negb (truthy_audio (audio_base64 seg)) then Ok audio_segments_map
      else
        match audio_base64 seg with
        | AudioStr s =>
            Ok (<[sid := {| ad_audio_base64 := s;
                            ad_audio_length := String.length s |}]>
                  audio_segments_map)
        | AudioChunks chunks =>
            s ← combine_chunks chunks;
            Ok (<[sid := {| ad_audio_base64 := s;
                            ad_audio_length := String.length s |}]>
                  audio_segments_map)
        | _ => Ok audio_segments_map
        end
  end.

Fixpoint map_audio_segments (segs : list SegmentRecord)
    (audio_segments_map : gmap Z AudioData) : result (gmap Z AudioData) :=
  match segs with
  | [] => Ok audio_segments_map
  | seg :: rest =>
      m ← map_audio_segment audio_segments_map seg;
      map_audio_segments rest m
  end.

(** Step 4, the body of the loop over [content_segments]. *)
Definition map_content_segment (content_segments_map : gmap Z ContentData)
    (seg : SegmentRecord) : gmap Z ContentData :=
  match segment_id seg with
  | None => content_segments_map
  | Some sid =>
      <[sid := {| cd_narration := default "" (narration seg);
                  cd_image_url := image_url seg;
                  cd_duration := duration seg |}]> content_segments_map
  end.

Definition map_content_segments (segs : list SegmentRecord)
    : gmap Z ContentData :=
  foldl map_content_segment ∅ segs.

(** [sorted(m.keys())] *)
Definition sorted_keys {A} (m : gmap Z A) : list Z :=
  sorted ((map_to_list m).*1).

(** Step 5, the body of the loop over [sorted(all_segment_ids)]. *)
Definition combine_segment (audio_segments_map : gmap Z AudioData)
    (content_segments_map : gmap Z ContentData)
    (combined_segments : list CombinedSegment) (sid : Z)
    : list CombinedSegment :=
  match audio_segments_map !! sid with
  | None => combined_segments
  | Some audio_data =>
      match content_segments_map !! sid with
      | None => combined_segments
      | Some content_data =>
          combined_segments ++
            [ {| cs_segment_id := sid;
                 audioBase64 := ad_audio_base64 audio_data;
                 imageUrl := cd_image_url content_data;
                 cs_narration := cd_narration content_data;
                 cs_duration := cd_duration content_data |} ]
      end
  end.

Definition combine_segments (audio_segments_map : gmap Z AudioData)
    (content_segments_map : gmap Z ContentData) : list CombinedSegment :=
  let audio_segment_ids := sorted_keys audio_segments_map in
  let content_segment_ids := sorted_keys content_segments_map in
  let all_segment_ids : gset Z :=
    list_to_set (audio_segment_ids ++ content_segment_ids) in
  let combined_segments :=
    foldl (combine_segment audio_segments_map content_segments_map) []
      (sorted (elements all_segment_ids)) in
  sorted_by cs_segment_id combined_segments.

(** The validation filter.  The test [seg.get("segment_id") is not None]
    holds for every element, a key of the maps never being [None]. *)
Definition valid_segment (seg : CombinedSegment) : bool :=
  negb (String.eqb (audioBase64 seg) "").

(** Steps 3 to 5 and the validation filter: the two role lists to
    [valid_segments]. *)
Definition merge_segments (audio_segments content_segments : list SegmentRecord)
    : result (list CombinedSegment) :=
  audio_segments_map ← map_audio_segments audio_segments ∅;
  let content_segments_map := map_content_segments content_segments in
  let combined_segments :=
    combine_segments audio_segments_map content_segments_map in
  Ok (List.filter valid_segment combined_segments).

(** Python truth value of [parsed.get("topic")]. *)
Definition truthy_str (s : option string) : bool :=
  match s with
  | Some s => negb (String.eqb s "")
  | None => false
  end.

(** [audio_parsed.get("topic") or content_parsed.get("topic") or userInput] *)
Definition lesson_topic (roles : Roles) (userInput : string) : string :=
  if truthy_str (topic (audio_parsed roles)) then
    default "" (topic (audio_parsed roles))
  else if truthy_str (topic (content_parsed roles)) then
    default "" (topic (content_parsed roles))
  else userInput.

(** The handler from "Extract segments from both results" to its return.
    An exception raised on the way reaches the [except Exception] clause. *)
Definition generate_lesson (parsed_result0 parsed_result1 : ParsedOutput)
    (userInput : string) : response LessonData :=
  let segments0 := get_segments parsed_result0 in
  let segments1 := get_segments parsed_result1 in
  match validate_segments [(segments0, 0%nat); (segments1, 1%nat)] with
  | Some r => r
  | None =>
      match detect_roles parsed_result0 parsed_result1
              (segments_list segments0) (segments_list segments1) with
      | None => JSONResponse 500 NoAudioFound
      | Some roles =>
          match merge_segments (audio_segments roles) (content_segments roles) with
          | Raise e => JSONResponse 500 (InternalServerError e)
          | Ok valid_segments =>
              if (length valid_segments =? 0)%nat then
                JSONResponse 500 NoValidSegments
              else
                Success {| ld_topic := lesson_topic roles userInput;
                           ld_segments := valid_segments |}
          end
      end
  end.

(** ** [generate_quiz]: formatting the questions *)

(** One element of the [quiz] array; [None] is a missing key. *)
Record QuestionData : Type := {
  question : option string;
  options : option (list string);
  correct_answer : option string
}.

(** An element of [formatted_questions]. *)
Record QuizQuestion : Type := {
  question_id : Z;               (* "id" *)
  question_text : string;        (* "question" *)
  question_options : list string; (* "options" *)
  correctAnswer : Z
}.

(** [str.lower] on the representable code points: the upper-case letters
    are A-Z and the Latin-1 range 192-222 without the multiplication sign. *)
Definition lower_char (c : ascii) : ascii :=
  let n := N_of_ascii c in
  if ((65 <=? n) && (n <=? 90) || (192 <=? n) && (n <=? 222) && negb (n =? 215))%N
  then ascii_of_N (n + 32)
  else c.

Fixpoint lower (s : string) : string :=
  match s with
  | EmptyString => EmptyString
  | String c rest => String (lower_char c) (lower rest)
  end.

(** [str.isspace] of one representable character. *)
Definition isspace (c : ascii) : bool :=
  let n := N_of_ascii c in
  ((9 <=? n) && (n <=? 13) || (28 <=? n) && (n <=? 32) || (n =? 133) || (n =? 160))%N.

Fixpoint lstrip (s : string) : string :=
  match s with
  | EmptyString => EmptyString
  | String c rest => if isspace c then lstrip rest else s
  end.

Fixpoint rstrip (s : string) : string :=
  match s with
  | EmptyString => EmptyString
  | String c rest =>
      match rstrip rest with
      | EmptyString => if isspace c then EmptyString else String c EmptyString
      | rest' => String c rest'
      end
  end.

Definition strip (s : string) : string := rstrip (lstrip s).

(** [options.index(x)]: the first position of [x], [None] for [ValueError]. *)
Fixpoint list_index (x : string) (l : list string) (i : nat) : option nat :=
  match l with
  | [] => None
  | y :: l' => if String.eqb y x then Some i else list_index x l' (S i)
  end.

(** The case-insensitive loop over [enumerate(options)], from position [i];
    [-1] when no option matches. *)
Fixpoint case_insensitive_index (correct_answer_text : string)
    (opts : list string) (i : nat) : Z :=
  match opts with
  | [] => -1
  | opt :: rest =>
      if String.eqb (strip (lower opt)) (strip (lower correct_answer_text))
      then Z.of_nat i
      else case_insensitive_index correct_answer_text rest (S i)
  end.

Definition find_correct_answer_index (opts : list string)
    (correct_answer_text : string) : Z :=
  match list_index correct_answer_text opts 0 with
  | Some i => Z.of_nat i
  | None => case_insensitive_index correct_answer_text opts 0
  end.

(** The body of the loop over [enumerate(quiz_array)]. *)
Definition format_question (formatted_questions : list QuizQuestion)
    (idx : nat) (question_data : QuestionData) : list QuizQuestion :=
  let question_text := default "" (question question_data) in
  let opts := default [] (options question_data) in
  let correct_answer_text := default "" (correct_answer question_data) in
  let correct_answer_index := find_correct_answer_index opts correct_answer_text in
  if (correct_answer_index =? -1)%Z then formatted_questions
  else
    formatted_questions ++
      [ {| question_id := Z.of_nat idx + 1;
           question_text := question_text;
           question_options := opts;
           correctAnswer := correct_answer_index |} ].

Fixpoint format_questions_from (idx : nat) (quiz_array : list QuestionData)
    (formatted_questions : list QuizQuestion) : list QuizQuestion :=
  match quiz_array with
  | [] => formatted_questions
  | question_data :: rest =>
      format_questions_from (S idx) rest
        (format_question formatted_questions idx question_data)
  end.

Definition format_questions (quiz_array : list QuestionData) : list QuizQuestion :=
  format_questions_from 0 quiz_array [].

(** The handler from "Extract quiz array" to its return.  [quiz] is
    [quiz_data.get("quiz")]: [None] when the key is missing or its value
    is not a list. *)
Definition generate_quiz (quiz : option (list QuestionData))
    : response (list QuizQuestion) :=
  match quiz with
  | None => JSONResponse 500 NoQuizArray
  | Some quiz_array =>
      if (length quiz_array =? 0)%nat then JSONResponse 500 NoQuizArray
      else
        let formatted_questions := format_questions quiz_array in
        if (length formatted_questions =? 0)%nat then
          JSONResponse 500 NoValidQuestions
        else Success formatted_questions
  end.

(** ** Python string operations used by the extraction code *)

(** [s.startswith(p)] *)
Fixpoint startswith (s p : string) {struct p} : bool :=
  match p with
  | EmptyString => true
  | String a p' =>
      match s with
      | EmptyString => false
      | String b s' => Ascii.eqb a b && startswith s' p'
      end
  end.

(** [s[k:]] for [k >= 0] *)
Fixpoint slice_from (k : nat) (s : string) : string :=
  match k, s with
  | O, _ => s
  | S k', String _ rest => slice_from k' rest
  | S _, EmptyString => EmptyString
  end.

(** [s.find(sub)], counting from position [i]: the lowest index at which
    [sub] occurs, [-1] when it does not occur. *)
Fixpoint find_from (sub s : string) (i : nat) : Z :=
  if startswith s sub then Z.of_nat i
  else
    match s with
    | EmptyString => -1
    | String _ rest => find_from sub rest (S i)
    end.

Definition find (s sub : string) : Z := find_from sub s 0.

(** [s.split(sep)] for a one-character separator. *)
Fixpoint split_on (sep : ascii) (s : string) : list string :=
  match s with
  | EmptyString => [EmptyString]
  | String c rest =>
      if Ascii.eqb c sep then EmptyString :: split_on sep rest
      else
        match split_on sep rest with
        | piece :: pieces => String c piece :: pieces
        | [] => [String c EmptyString]
        end
  end.

Definition newline : string := String "010"%char EmptyString.

(** ** [generate_quiz]: the personalization context and the quiz text *)

(** ["Key Observations & Learning Patterns\n\n###"] *)
Definition context_pattern : string :=
  String.append "Key Observations & Learning Patterns"
    (String.append newline (String.append newline "###")).

(** The context taken from a non-empty Fastino answer: what follows the
    first occurrence of the pattern, or the whole answer, stripped. *)
Definition extract_user_pref_context (answer : string) : string :=
  let pattern_index := find answer context_pattern in
  if (pattern_index =? -1)%Z then strip answer
  else strip (slice_from (Z.to_nat pattern_index + String.length context_pattern) answer).

(** Step 1 of [generate_quiz]. [answer] is what [query_fastino] returned
    ([None] also when it raised: the handler catches the exception and
    keeps the empty context). *)
Definition quiz_user_pref_context (user_id : option string)
    (answer : option string) : string :=
  if truthy_str user_id then
    if truthy_str answer then extract_user_pref_context (default "" answer)
    else ""
  else "".

(** The regular expression [```json\s*\n(.*?)\n```] with [re.DOTALL],
    run by [re.search]: the opening fence, a greedy run of white space, a
    newline, the shortest text up to a newline and a closing fence. *)
Definition fence_open : string := "```json".

Definition fence_close : string := String.append newline "```".

(** [(.*?)\n```]: the group is the text before the first closing fence. *)
Fixpoint match_group (s : string) : option string :=
  if startswith s fence_close then Some EmptyString
  else
    match s with
    | EmptyString => None
    | String c rest => String c <$> match_group rest
    end.

(** [\n(.*?)\n```] *)
Definition match_newline_group (s : string) : option string :=
  match s with
  | String c rest => if Ascii.eqb c "010"%char then match_group rest else None
  | EmptyString => None
  end.

(** [\s*\n(.*?)\n```]: the longest run of white space is tried first, then
    shorter ones. *)
Fixpoint match_space_group (s : string) : option string :=
  match s with
  | String c rest =>
      if isspace c then
        match match_space_group rest with
        | Some g => Some g
        | None => match_newline_group s
        end
      else match_newline_group s
  | EmptyString => None
  end.

(** A match of the whole expression that starts at the start of [s]. *)
Definition match_fence_at (s : string) : option string :=
  if startswith s fence_open
  then match_space_group (slice_from (String.length fence_open) s)
  else None.

(** [re.search(...)]: the match at the leftmost position that has one;
    the result is [group(1)]. *)
Fixpoint search_fence (s : string) : option string :=
  match match_fence_at s with
  | Some g => Some g
  | None =>
      match s with
      | EmptyString => None
      | String _ rest => search_fence rest
      end
  end.

(** [quiz_json_str] for a [str] result. *)
Definition extract_quiz_json_str (result_value : string) : string :=
  match search_fence result_value with
  | Some g => strip g
  | None => strip result_value
  end.

(** ** [test_audio.py]: decoding a segment's audio *)

(** The argument of the script's functions: a string or a list of chunks. *)
Inductive audio_arg : Type :=
  | ArgStr (s : string)
  | ArgList (chunks : list string).

(** [combine_audio_base64(chunks)] *)
Definition combine_audio_base64 (chunks : audio_arg) : result string :=
  let chunks :=
    match chunks with
    | ArgStr s => [s]
    | ArgList l => l
    end in
  combined ← decode_chunks chunks [];
  Ok (Base64.b64encode combined).

(** [decode_audio_base64(audio_base64, output_path)]: the bytes the
    function writes to [output_path], [None] when it returns [False]
    before it writes. *)
Definition decode_audio_base64 (audio_base64 : audio_arg) : option (list byte) :=
  let stripped_prefix : option audio_arg :=
    match audio_base64 with
    | ArgStr s =>
        if startswith s "data:" then ArgStr <$> (split_on ","%char s !! 1%nat)
        else Some audio_base64
    | ArgList _ => Some audio_base64
    end in
  match stripped_prefix with
  | None => None
  | Some (ArgList chunks) =>
      match combine_audio_base64 (ArgList chunks) with
      | Ok final_audio_b64 => result_to_option (Base64.b64decode final_audio_b64)
      | Raise _ => None
      end
  | Some (ArgStr s) => result_to_option (Base64.b64decode (strip s))
  end.

(** ** Sample values *)

Definition audio_seg (sid : Z) (a : audio_field) : SegmentRecord :=
  {| segment_id := Some sid; audio_base64 := a; narration := None;
     image_url := None; duration := None |}.

Definition content_seg (sid : Z) (text : string) : SegmentRecord :=
  {| segment_id := Some sid; audio_base64 := AudioAbsent;
     narration := Some text; image_url := None; duration := None |}.

Definition parsed_of (segs : list SegmentRecord) : ParsedOutput :=
  {| topic := None; segments := Some (SegmentsList segs) |}.

(** ** Auxiliary definitions for the statements and proofs *)

(** Ascending and strictly ascending order of keys. *)
Definition key_le {A} (key : A -> Z) (x y : A) : Prop := (key x <= key y)%Z.
Definition key_lt {A} (key : A -> Z) (x y : A) : Prop := (key x < key y)%Z.

(** The string the audio loop stores for a field value, if it stores one. *)
Definition stored_audio (a : audio_field) : result (option string) :=
  if negb (truthy_audio a) then Ok None
  else
    match a with
    | AudioStr s => Ok (Some s)
    | AudioChunks chunks => s ← combine_chunks chunks; Ok (Some s)
    | _ => Ok None
    end.

Definition audio_data_of (s : string) : AudioData :=
  {| ad_audio_base64 := s; ad_audio_length := String.length s |}.

Definition content_data_of (seg : SegmentRecord) : ContentData :=
  {| cd_narration := default "" (narration seg);
     cd_image_url := image_url seg;
     cd_duration := duration seg |}.

(** The binding one audio record adds to the map, if it adds one. *)
Definition audio_entry (seg : SegmentRecord) : result (option (Z * AudioData)) :=
  match segment_id seg with
  | None => Ok None
  | Some sid =>
      o ← stored_audio (audio_base64 seg);
      Ok (s ← o; Some (sid, audio_data_of s))
  end.

Fixpoint audio_entries (segs : list SegmentRecord) : result (list (Z * AudioData)) :=
  match segs with
  | [] => Ok []
  | seg :: rest =>
      e ← audio_entry seg;
      es ← audio_entries rest;
      Ok (option_list e ++ es)
  end.

Definition content_entry (seg : SegmentRecord) : option (Z * ContentData) :=
  sid ← segment_id seg; Some (sid, content_data_of seg).

Definition insert_entry {V} (m : gmap Z V) (e : Z * V) : gmap Z V :=
  <[e.1 := e.2]> m.

(** The segment the combining loop appends for an identifier, if any. *)
Definition combined_segment (audio_segments_map : gmap Z AudioData)
    (content_segments_map : gmap Z ContentData) (sid : Z) : option CombinedSegment :=
  audio_data ← audio_segments_map !! sid;
  content_data ← content_segments_map !! sid;
  Some {| cs_segment_id := sid;
          audioBase64 := ad_audio_base64 audio_data;
          imageUrl := cd_image_url content_data;
          cs_narration := cd_narration content_data;
          cs_duration := cd_duration content_data |}.

(** The identifiers the combining loop visits, in the order it visits them. *)
Definition visited_ids (am : gmap Z AudioData) (cm : gmap Z ContentData) : list Z :=
  sorted (elements (dom am ∪ dom cm)).


(** An audio record that, if it has an identifier, puts a non-empty audio
    string into the map. *)
Definition usable_audio_record (seg : SegmentRecord) : bool :=
  match segment_id seg with
  | None => true
  | Some _ =>
      match stored_audio (audio_base64 seg) with
      | Ok (Some s) => negb (String.eqb s "")
      | _ => false
      end
  end.

(** [audio_base64.startswith("data:")] *)
Definition has_data_uri_prefix (s : string) : bool := String.prefix "data:" s.

Definition sample_chunked_audio : ParsedOutput :=
  parsed_of [audio_seg 1 (AudioChunks ["QQ=="]); audio_seg 2 (AudioChunks ["Qg=="; "Q"])].

Definition sample_content : ParsedOutput :=
  parsed_of [content_seg 1 "one"; content_seg 2 "two"].

(** The position the loop finds for the correct answer of an entry. *)
Definition resolved_index (question_data : QuestionData) : Z :=
  find_correct_answer_index (default [] (options question_data))
    (default "" (correct_answer question_data)).

(** The question the loop appends for the entry at position [idx]. *)
Definition formatted_question (idx : nat) (question_data : QuestionData)
    : option QuizQuestion :=
  if (resolved_index question_data =? -1)%Z then None
  else Some {| question_id := Z.of_nat idx + 1;
               question_text := default "" (question question_data);
               question_options := default [] (options question_data);
               correctAnswer := resolved_index question_data |}.

Definition sample_quiz : list QuestionData :=
  [ {| question := Some "Capital of Spain?";
       options := Some ["Paris"; "London"; "Berlin"];
       correct_answer := Some "Madrid" |};
    {| question := Some "Capital of Germany?";
       options := Some ["Paris"; "London"; "Berlin"];
       correct_answer := Some "berlin" |} ].

(** A record with a [segment_id]. *)
Definition has_segment_id (seg : SegmentRecord) : bool :=
  match segment_id seg with
  | Some _ => true
  | None => false
  end.

(** An audio record that passes the first two guards of the audio loop. *)
Definition reaches_audio_map (seg : SegmentRecord) : bool :=
  has_segment_id seg && truthy_audio (audio_base64 seg).

(** Five records without audio, then one with audio. *)
Definition five_silent_then_audio : list SegmentRecord :=
  [audio_seg 1 AudioAbsent; audio_seg 2 AudioAbsent; audio_seg 3 (AudioStr "");
   audio_seg 4 AudioAbsent; audio_seg 5 (AudioChunks []);
   audio_seg 6 (AudioStr "QQ==")].

(** An entry whose correct answer is found among its options. *)
Definition resolvable (question_data : QuestionData) : bool :=
  negb (resolved_index question_data =? -1)%Z.

(** Every character of a string passes a test. *)
Fixpoint string_forall (P : ascii -> bool) (s : string) : bool :=
  match s with
  | EmptyString => true
  | String c rest => P c && string_forall P rest
  end.

(** A character that is no white space, no comma and no colon. *)
Definition payload_char (c : ascii) : bool :=
  negb (isspace c) && negb (Ascii.eqb c ","%char) && negb (Ascii.eqb c ":"%char).

Definition payload_sextet (n : N) : bool := payload_char (Base64.table_b2a_base64 n).

(** * Properties *)

(** ** The handlers on sample inputs *)

Example b64encode_A : Base64.b64encode [x41] = "QQ==".
Proof. reflexivity. Qed.

Example b64decode_AB : Base64.b64decode "QUI=" = Ok [x41; x42].
Proof. reflexivity. Qed.

Example b64decode_one_character :
  Base64.b64decode "Q" = Raise binascii_Error_invalid_length.
Proof. reflexivity. Qed.

Example b64decode_missing_padding :
  Base64.b64decode "QQ=" = Raise binascii_Error_incorrect_padding.
Proof. reflexivity. Qed.

Example merge_one_segment :
  merge_segments [audio_seg 1 (AudioStr "QQ==")]
    [ {| segment_id := Some 1%Z; audio_base64 := AudioAbsent;
         narration := Some "Hello"; image_url := Some "http://x/1.png";
         duration := Some 5%Z |} ] =
  Ok [ {| cs_segment_id := 1; audioBase64 := "QQ=="; imageUrl := Some "http://x/1.png";
          cs_narration := "Hello"; cs_duration := Some 5%Z |} ].
Proof. vm_compute. reflexivity. Qed.

Example merge_drops_content_only_id :
  merge_segments [audio_seg 1 (AudioStr "QQ==")]
    [content_seg 1 "one"; content_seg 2 "two"] =
  Ok [ {| cs_segment_id := 1; audioBase64 := "QQ=="; imageUrl := None;
          cs_narration := "one"; cs_duration := None |} ].
Proof. vm_compute. reflexivity. Qed.

Example generate_lesson_sample :
  generate_lesson sample_content
    (parsed_of [audio_seg 2 (AudioChunks ["Qg=="; "Qw=="]); audio_seg 1 (AudioStr "QQ==")])
    "topic" =
  Success {| ld_topic := "topic";
             ld_segments :=
               [ {| cs_segment_id := 1; audioBase64 := "QQ=="; imageUrl := None;
                    cs_narration := "one"; cs_duration := None |};
                 {| cs_segment_id := 2; audioBase64 := "QkM="; imageUrl := None;
                    cs_narration := "two"; cs_duration := None |} ] |}.
Proof. vm_compute. reflexivity. Qed.

Example berlin_resolves_to_2 :
  find_correct_answer_index ["Paris"; "London"; "Berlin"] "berlin" = 2%Z.
Proof. reflexivity. Qed.

Example format_sample_quiz :
  generate_quiz (Some sample_quiz) =
  Success [ {| question_id := 2; question_text := "Capital of Germany?";
               question_options := ["Paris"; "London"; "Berlin"];
               correctAnswer := 2 |} ].
Proof. reflexivity. Qed.

(** ** Base64: decoding an encoding *)

Section Base64Facts.
Import Base64.
Local Open Scope N_scope.

(** Checking a boolean property of all numbers below a bound by running it. *)
Lemma forall_below (P : N -> bool) (k : nat) :
  forallb P (List.map N.of_nat (seq 0 k)) = true ->
  forall n, n < N.of_nat k -> P n = true.
Proof.
  intros Hall n Hn.
  rewrite forallb_forall in Hall. apply Hall.
  apply in_map_iff. exists (N.to_nat n). split; [apply N2Nat.id|].
  apply in_seq. lia.
Qed.

Lemma forall_below2 (P : N -> N -> bool) (k : nat) :
  forallb (fun a => forallb (P a) (List.map N.of_nat (seq 0 k)))
    (List.map N.of_nat (seq 0 k)) = true ->
  forall a b, a < N.of_nat k -> b < N.of_nat k -> P a b = true.
Proof.
  intros Hall a b Ha Hb.
  apply (forall_below (P a) k); [|exact Hb].
  apply (forall_below (fun a => forallb (P a) (List.map N.of_nat (seq 0 k))) k Hall a Ha).
Qed.

Lemma sextet_ok_below n : n < 64 -> sextet_ok n = true.
Proof. apply (forall_below sextet_ok 64). vm_compute. reflexivity. Qed.

Lemma table_a2b_b2a n : n < 64 -> table_a2b_base64 (table_b2a_base64 n) = Some n.
Proof.
  intros Hn. pose proof (sextet_ok_below n Hn) as H. unfold sextet_ok in H.
  destruct (table_a2b_base64 (table_b2a_base64 n)) as [m|]; [|discriminate].
  apply andb_prop in H as [H _]. apply andb_prop in H as [H _].
  apply N.eqb_eq in H. congruence.
Qed.

Lemma table_b2a_not_pad n : n < 64 -> Ascii.eqb (table_b2a_base64 n) BASE64_PAD = false.
Proof.
  intros Hn. pose proof (sextet_ok_below n Hn) as H. unfold sextet_ok in H.
  apply andb_prop in H as [H _]. apply andb_prop in H as [_ H].
  apply negb_true_iff in H. exact H.
Qed.

Lemma table_b2a_is_ascii n : n < 64 -> is_ascii (table_b2a_base64 n) = true.
Proof.
  intros Hn. pose proof (sextet_ok_below n Hn) as H. unfold sextet_ok in H.
  apply andb_prop in H as [_ H]. exact H.
Qed.

(** One step of the decoder on an alphabet character. *)
Lemma a2b_loop_sextet n rest quad_pos leftchar pads bin_data :
  n < 64 ->
  a2b_loop (String (table_b2a_base64 n) rest) quad_pos leftchar pads bin_data =
  match quad_pos with
  | O => a2b_loop rest 1 n 0 bin_data
  | 1%nat =>
      a2b_loop rest 2 (N.land n 15) 0
        (bin_data ++ [to_byte (N.lor (N.shiftl leftchar 2) (N.shiftr n 4))])
  | 2%nat =>
      a2b_loop rest 3 (N.land n 3) 0
        (bin_data ++ [to_byte (N.lor (N.shiftl leftchar 4) (N.shiftr n 2))])
  | _ =>
      a2b_loop rest 0 0 0
        (bin_data ++ [to_byte (N.lor (N.shiftl leftchar 6) n)])
  end.
Proof.
  intros Hn. cbn [a2b_loop].
  rewrite (table_b2a_not_pad n Hn), (table_a2b_b2a n Hn). reflexivity.
Qed.

Lemma group12_ok_below a b : a < 256 -> b < 256 -> group12_ok a b = true.
Proof. apply (forall_below2 group12_ok 256). vm_compute. reflexivity. Qed.

Lemma group23_ok_below b c : b < 256 -> c < 256 -> group23_ok b c = true.
Proof. apply (forall_below2 group23_ok 256). vm_compute. reflexivity. Qed.

Lemma to_N_below (a : byte) : Byte.to_N a < 256.
Proof. pose proof (Byte.to_N_bounded a). lia. Qed.

Lemma to_byte_of (a : byte) (n : N) : n mod 256 = Byte.to_N a -> to_byte n = a.
Proof. intros H. unfold to_byte. rewrite H, Byte.of_to_N. reflexivity. Qed.

Ltac group_facts H :=
  unfold group12_ok, group23_ok in H; cbv zeta in H;
  repeat (apply andb_prop in H; destruct H as [H ?]);
  repeat match goal with
         | X : (_ <? _) = true |- _ => apply N.ltb_lt in X
         | X : (_ =? _) = true |- _ => apply N.eqb_eq in X
         end.

(** Lists, three elements at a time. *)
Lemma list_ind3 {A} (P : list A -> Prop) :
  P [] -> (forall a, P [a]) -> (forall a b, P [a; b]) ->
  (forall a b c l, P l -> P (a :: b :: c :: l)) ->
  forall l, P l.
Proof.
  intros H0 H1 H2 H3.
  fix IH 1. intros [|a [|b [|c l]]].
  - exact H0.
  - apply H1.
  - apply H2.
  - apply H3. apply IH.
Qed.

Ltac close_group :=
  repeat match goal with
         | X : N.land _ 15 = _ |- _ => rewrite ?X; clear X
         end;
  repeat match goal with
         | X : ?n mod 256 = Byte.to_N ?a |- context [to_byte ?n] =>
             rewrite (to_byte_of a n X)
         end;
  rewrite <- ?app_assoc; reflexivity.

Lemma a2b_loop_b2a data : forall leftchar pads bin_data,
  a2b_loop (b2a_base64 data) 0 leftchar pads bin_data = Ok (bin_data ++ data)%list.
Proof.
  induction data as [|a|a b|a b c rest IH] using list_ind3;
    intros leftchar pads bin_data.
  - simpl. rewrite app_nil_r. reflexivity.
  - pose proof (group12_ok_below _ _ (to_N_below a) (to_N_below a)) as H.
    group_facts H.
    cbn [b2a_base64]. cbv zeta.
    rewrite !a2b_loop_sextet by assumption.
    cbn [a2b_loop]. change (Ascii.eqb BASE64_PAD BASE64_PAD) with true.
    cbn [Nat.leb Nat.add]. cbv iota.
    close_group.
  - pose proof (group12_ok_below _ _ (to_N_below a) (to_N_below b)) as H.
    pose proof (group23_ok_below _ _ (to_N_below b) (to_N_below b)) as H'.
    group_facts H. group_facts H'.
    cbn [b2a_base64]. cbv zeta.
    rewrite !a2b_loop_sextet by assumption.
    cbn [a2b_loop]. change (Ascii.eqb BASE64_PAD BASE64_PAD) with true.
    cbn [Nat.leb Nat.add]. cbv iota.
    close_group.
  - pose proof (group12_ok_below _ _ (to_N_below a) (to_N_below b)) as H.
    pose proof (group23_ok_below _ _ (to_N_below b) (to_N_below c)) as H'.
    group_facts H. group_facts H'.
    cbn [b2a_base64]. cbv zeta.
    rewrite !a2b_loop_sextet by assumption.
    rewrite IH.
    close_group.
Qed.

Lemma all_ascii_b2a data : all_ascii (b2a_base64 data) = true.
Proof.
  induction data as [|a|a b|a b c rest IH] using list_ind3.
  - reflexivity.
  - pose proof (group12_ok_below _ _ (to_N_below a) (to_N_below a)) as H.
    group_facts H.
    cbn [b2a_base64 all_ascii]. cbv zeta.
    rewrite !table_b2a_is_ascii by assumption. reflexivity.
  - pose proof (group12_ok_below _ _ (to_N_below a) (to_N_below b)) as H.
    pose proof (group23_ok_below _ _ (to_N_below b) (to_N_below b)) as H'.
    group_facts H. group_facts H'.
    cbn [b2a_base64 all_ascii]. cbv zeta.
    rewrite !table_b2a_is_ascii by assumption. reflexivity.
  - pose proof (group12_ok_below _ _ (to_N_below a) (to_N_below b)) as H.
    pose proof (group23_ok_below _ _ (to_N_below b) (to_N_below c)) as H'.
    group_facts H. group_facts H'.
    cbn [b2a_base64 all_ascii]. cbv zeta.
    rewrite !table_b2a_is_ascii by assumption. rewrite IH. reflexivity.
Qed.

(** [b64decode] inverts [b64encode]. *)
Lemma b64decode_b64encode data : b64decode (b64encode data) = Ok data.
Proof.
  unfold b64decode, b64encode, a2b_base64.
  rewrite all_ascii_b2a. apply a2b_loop_b2a.
Qed.

End Base64Facts.

(** ** Sorting *)

Section Sorting.
Context {A : Type} (key : A -> Z).

Lemma insert_by_Permutation x l : insert_by key x l ≡ₚ x :: l.
Proof.
  induction l as [|y l IH]; simpl; [done|].
  destruct (key x <=? key y)%Z; [done|].
  rewrite IH. apply Permutation_swap.
Qed.

Lemma sorted_by_Permutation l : sorted_by key l ≡ₚ l.
Proof.
  induction l as [|x l IH]; simpl; [done|].
  rewrite insert_by_Permutation, IH. done.
Qed.

Lemma insert_by_sorted x l :
  StronglySorted (key_le key) l -> StronglySorted (key_le key) (insert_by key x l).
Proof.
  induction 1 as [|y l Hl IH Hy]; simpl.
  - repeat constructor.
  - destruct (key x <=? key y)%Z eqn:E.
    + apply Z.leb_le in E. constructor; [by constructor|].
      constructor; [done|].
      eapply Forall_impl; [exact Hy|]. unfold key_le. intros; lia.
    + apply Z.leb_gt in E. constructor; [done|].
      rewrite insert_by_Permutation. constructor; [|done].
      unfold key_le. lia.
Qed.

Lemma sorted_by_sorted l : StronglySorted (key_le key) (sorted_by key l).
Proof.
  induction l as [|x l IH]; simpl; [constructor|].
  by apply insert_by_sorted.
Qed.

(** Sorting a list that is already in ascending order changes nothing. *)
Lemma sorted_by_fixed l : StronglySorted (key_le key) l -> sorted_by key l = l.
Proof.
  induction 1 as [|x l Hl IH Hx]; simpl; [done|].
  rewrite IH. destruct l as [|y l]; simpl; [done|].
  apply Forall_cons in Hx as [Hxy _]. unfold key_le in Hxy.
  apply Z.leb_le in Hxy. by rewrite Hxy.
Qed.

Lemma key_lt_le l : StronglySorted (key_lt key) l -> StronglySorted (key_le key) l.
Proof.
  induction 1 as [|x l Hl IH Hx]; constructor; [done|].
  eapply Forall_impl; [exact Hx|]. unfold key_lt, key_le. intros; lia.
Qed.
End Sorting.

Lemma sorted_Permutation (l : list Z) : sorted l ≡ₚ l.
Proof. apply sorted_by_Permutation. Qed.

Lemma sorted_StronglySorted (l : list Z) : StronglySorted Z.le (sorted l).
Proof. apply (sorted_by_sorted (fun x => x)). Qed.

(** [sorted] only depends on the elements, not on their order. *)
Lemma sorted_proper (l1 l2 : list Z) : l1 ≡ₚ l2 -> sorted l1 = sorted l2.
Proof.
  intros H. apply (StronglySorted_unique Z.le).
  - apply sorted_StronglySorted.
  - apply sorted_StronglySorted.
  - by rewrite !sorted_Permutation.
Qed.

Lemma sorted_NoDup_lt (l : list Z) : NoDup l -> StronglySorted Z.lt (sorted l).
Proof.
  intros Hnd.
  assert (NoDup (sorted l)) as Hnd' by (by rewrite sorted_Permutation).
  pose proof (sorted_StronglySorted l) as Hs.
  induction Hs as [|x k Hk IH Hx]; [constructor|].
  apply NoDup_cons in Hnd' as [Hx' Hnd']. constructor; [by apply IH|].
  apply Forall_forall. intros y Hy.
  rewrite Forall_forall in Hx. specialize (Hx y Hy).
  assert (x <> y) by (intros ->; done). lia.
Qed.

(** ** The identifier maps as folds of insertions *)

Section Folds.
Context {V : Type}.
Implicit Types (m : gmap Z V) (es : list (Z * V)).

Lemma foldl_insert_entry es m :
  foldl insert_entry m es = list_to_map (reverse es) ∪ m.
Proof.
  induction es as [|e es IH] using rev_ind.
  - simpl. by rewrite (left_id_L ∅ (∪)).
  - rewrite foldl_snoc, reverse_snoc, IH. simpl.
    unfold insert_entry. by rewrite insert_union_l.
Qed.

(** The binding of a key is the one inserted last. *)
Lemma foldl_insert_entry_last es1 es2 m k v :
  (forall e, e ∈ es2 -> e.1 <> k) ->
  foldl insert_entry m (es1 ++ (k, v) :: es2) !! k = Some v.
Proof.
  induction es2 as [|e es2 IH] using rev_ind; intros Hk.
  - rewrite foldl_snoc. unfold insert_entry. simpl. by rewrite lookup_insert_eq.
  - rewrite app_comm_cons, app_assoc, foldl_snoc.
    unfold insert_entry at 1. rewrite lookup_insert_ne.
    + apply IH. intros e' He'. apply Hk. apply elem_of_app. by left.
    + apply Hk. apply elem_of_app. right. by apply list_elem_of_singleton.
Qed.

Lemma foldl_insert_entry_dom es k :
  is_Some (foldl insert_entry (∅ : gmap Z V) es !! k) <-> k ∈ es.*1.
Proof.
  induction es as [|e es IH] using rev_ind.
  - simpl. rewrite lookup_empty, elem_of_nil. split; [by intros [? ?]|done].
  - rewrite foldl_snoc, fmap_app, elem_of_app. unfold insert_entry at 1.
    simpl. rewrite list_elem_of_singleton.
    destruct (decide (e.1 = k)) as [->|Hne].
    + rewrite lookup_insert_eq. split; [by right|by eexists].
    + rewrite lookup_insert_ne by done. rewrite IH.
      split; [by left|]. intros [?|?]; [done|congruence].
Qed.

End Folds.

Lemma map_audio_segment_entry m seg :
  map_audio_segment m seg =
  (e ← audio_entry seg; Ok (foldl insert_entry m (option_list e))).
Proof.
  unfold map_audio_segment, audio_entry, stored_audio.
  destruct (segment_id seg) as [sid|]; [|done].
  destruct (negb (truthy_audio (audio_base64 seg))); [done|].
  destruct (audio_base64 seg) as [|s|chunks|t]; try done.
  simpl. destruct (combine_chunks chunks); done.
Qed.

Lemma map_audio_segments_entries segs : forall m,
  map_audio_segments segs m = (es ← audio_entries segs; Ok (foldl insert_entry m es)).
Proof.
  induction segs as [|seg segs IH]; intros m; [done|].
  cbn [map_audio_segments audio_entries].
  rewrite map_audio_segment_entry.
  destruct (audio_entry seg) as [e|x]; [|done]. simpl.
  rewrite IH. destruct (audio_entries segs) as [es|x]; [|done]. simpl.
  by rewrite foldl_app.
Qed.

Lemma map_content_segments_entries segs :
  map_content_segments segs = foldl insert_entry ∅ (omap content_entry segs).
Proof.
  unfold map_content_segments. generalize (∅ : gmap Z ContentData).
  induction segs as [|seg segs IH]; intros m; [done|].
  simpl. rewrite IH. unfold map_content_segment, content_entry.
  destruct (segment_id seg); done.
Qed.

(** ** Step 5 as a map over the sorted identifiers *)

Lemma combined_segment_id am cm sid x :
  combined_segment am cm sid = Some x -> cs_segment_id x = sid.
Proof.
  unfold combined_segment. intros H.
  destruct (am !! sid); [|done]. destruct (cm !! sid); [|done].
  simpl in H. by inversion H.
Qed.

Lemma foldl_combine_segment am cm ids : forall acc,
  foldl (combine_segment am cm) acc ids = acc ++ omap (combined_segment am cm) ids.
Proof.
  induction ids as [|sid ids IH]; intros acc; simpl.
  - by rewrite app_nil_r.
  - rewrite IH. unfold combine_segment, combined_segment.
    destruct (am !! sid); [|done]. destruct (cm !! sid); [|done].
    simpl. by rewrite <- app_assoc.
Qed.

Lemma elem_of_sorted_keys {V} (m : gmap Z V) k : k ∈ sorted_keys m <-> k ∈ dom m.
Proof.
  unfold sorted_keys. rewrite sorted_Permutation, elem_of_dom.
  rewrite list_elem_of_fmap. split.
  - intros ([k' v] & -> & Hin). apply elem_of_map_to_list in Hin. by eexists.
  - intros [v Hv]. exists (k, v). split; [done|]. by apply elem_of_map_to_list.
Qed.

Lemma all_segment_ids_dom (am : gmap Z AudioData) (cm : gmap Z ContentData) :
  list_to_set (sorted_keys am ++ sorted_keys cm) =@{gset Z} dom am ∪ dom cm.
Proof.
  apply set_eq. intros k.
  rewrite elem_of_list_to_set, elem_of_app, elem_of_union, !elem_of_sorted_keys.
  done.
Qed.

Lemma omap_combined_sorted am cm ids :
  StronglySorted Z.lt ids ->
  StronglySorted (key_lt cs_segment_id) (omap (combined_segment am cm) ids).
Proof.
  induction 1 as [|sid ids Hs IH Hsid]; simpl; [constructor|].
  destruct (combined_segment am cm sid) as [x|] eqn:Hx; [|done].
  constructor; [done|].
  apply Forall_forall. intros y Hy.
  apply list_elem_of_omap in Hy as (sid' & Hin & Hy).
  apply combined_segment_id in Hx, Hy. unfold key_lt. rewrite Hx, Hy.
  rewrite Forall_forall in Hsid. by apply Hsid.
Qed.

Lemma visited_ids_sorted am cm : StronglySorted Z.lt (visited_ids am cm).
Proof. apply sorted_NoDup_lt, NoDup_elements. Qed.

Lemma elem_of_visited_ids am cm k :
  k ∈ visited_ids am cm <-> k ∈ dom am \/ k ∈ dom cm.
Proof.
  unfold visited_ids. by rewrite sorted_Permutation, elem_of_elements, elem_of_union.
Qed.

(** The final [sort] leaves the list as the loop built it. *)
Lemma combine_segments_omap am cm :
  combine_segments am cm = omap (combined_segment am cm) (visited_ids am cm).
Proof.
  unfold combine_segments. cbv zeta.
  rewrite all_segment_ids_dom, foldl_combine_segment. simpl.
  apply sorted_by_fixed, key_lt_le, omap_combined_sorted, visited_ids_sorted.
Qed.

Lemma elem_of_combine_segments am cm x :
  x ∈ combine_segments am cm <-> combined_segment am cm (cs_segment_id x) = Some x.
Proof.
  rewrite combine_segments_omap, list_elem_of_omap. split.
  - intros (sid & _ & Hx). by rewrite (combined_segment_id _ _ _ _ Hx).
  - intros Hx. exists (cs_segment_id x). split; [|done].
    apply elem_of_visited_ids. left. apply elem_of_dom.
    unfold combined_segment in Hx. destruct (am !! cs_segment_id x); [by eexists|done].
Qed.

Lemma StronglySorted_filter {A} (R : relation A) (P : A -> bool) l :
  StronglySorted R l -> StronglySorted R (List.filter P l).
Proof.
  induction 1 as [|x l Hl IH Hx]; simpl; [constructor|].
  destruct (P x); [|done]. constructor; [done|].
  apply Forall_forall. intros y Hy.
  apply list_elem_of_In, filter_In in Hy as [Hy _].
  rewrite Forall_forall in Hx. apply Hx. by apply list_elem_of_In.
Qed.

Lemma merge_segments_entries audio content :
  merge_segments audio content =
  (es ← audio_entries audio;
   Ok (List.filter valid_segment
         (combine_segments (foldl insert_entry ∅ es)
            (foldl insert_entry ∅ (omap content_entry content))))).
Proof.
  unfold merge_segments. rewrite map_audio_segments_entries.
  destruct (audio_entries audio); [|done]. simpl.
  by rewrite map_content_segments_entries.
Qed.

(** ** Reordering the input lists *)



Lemma audio_entry_key seg k d :
  audio_entry seg = Ok (Some (k, d)) -> segment_id seg = Some k.
Proof.
  unfold audio_entry. destruct (segment_id seg) as [sid|]; [|done].
  destruct (stored_audio (audio_base64 seg)) as [[s|]|]; simpl; try done.
  intros H. by inversion H.
Qed.

Lemma audio_entries_keys segs : forall es,
  audio_entries segs = Ok es -> es.*1 `sublist_of` omap segment_id segs.
Proof.
  induction segs as [|seg segs IH]; intros es; cbn [audio_entries].
  - intros H. inversion H. done.
  - destruct (audio_entry seg) as [e|] eqn:He; [|done]. simpl.
    destruct (audio_entries segs) as [es'|]; [|done]. simpl.
    intros H. inversion H; subst es. clear H. specialize (IH es' eq_refl).
    rewrite fmap_app. destruct e as [[k d]|]; simpl.
    + apply audio_entry_key in He. rewrite He. by apply sublist_skip.
    + destruct (segment_id seg); [by apply sublist_cons|done].
Qed.

Lemma content_entry_keys segs : (omap content_entry segs).*1 = omap segment_id segs.
Proof.
  induction segs as [|seg segs IH]; [done|].
  change (omap content_entry (seg :: segs))
    with (match content_entry seg with
          | Some e => e :: omap content_entry segs
          | None => omap content_entry segs
          end).
  change (omap segment_id (seg :: segs))
    with (match segment_id seg with
          | Some k => k :: omap segment_id segs
          | None => omap segment_id segs
          end).
  unfold content_entry at 1. destruct (segment_id seg); simpl; [|done].
  f_equal. exact IH.
Qed.



Lemma merge_segments_sorted audio content out :
  merge_segments audio content = Ok out ->
  StronglySorted Z.lt (cs_segment_id <$> out).
Proof.
  rewrite merge_segments_entries.
  destruct (audio_entries audio) as [es|]; [|done]. simpl.
  intros H. inversion H. clear H.
  apply StronglySorted_fmap with (R1 := key_lt cs_segment_id); [done|].
  apply StronglySorted_filter. rewrite combine_segments_omap.
  apply omap_combined_sorted, visited_ids_sorted.
Qed.

(** ** The chunk combiner *)

Lemma decode_chunks_concat chunks : forall bs combined_binary,
  Forall2 (fun c b => Base64.b64decode c = Ok b) chunks bs ->
  decode_chunks chunks combined_binary = Ok (combined_binary ++ concat bs).
Proof.
  induction chunks as [|c chunks IH]; intros bs acc Hall.
  - apply Forall2_nil_inv_l in Hall as ->. simpl. by rewrite app_nil_r.
  - apply Forall2_cons_inv_l in Hall as (b & bs' & Hc & Hall & ->).
    cbn [decode_chunks]. rewrite Hc. simpl.
    rewrite (IH bs' _ Hall). by rewrite <- app_assoc.
Qed.

Lemma combine_chunks_concat chunks bs :
  Forall2 (fun c b => Base64.b64decode c = Ok b) chunks bs ->
  combine_chunks chunks = Ok (Base64.b64encode (concat bs)).
Proof.
  intros Hall. unfold combine_chunks.
  by rewrite (decode_chunks_concat chunks bs [] Hall).
Qed.

(** C2. For chunks [c1], [c2], [c3] that decode to [b1], [b2], [b3], the
    combiner returns one base64 string, the encoding of [b1 ++ b2 ++ b3],
    which decodes to exactly [b1 ++ b2 ++ b3]; and there are valid chunks
    for which decoding the concatenated base64 texts gives something else. *)
Theorem combine_chunks_decodes_to_concatenation (c1 c2 c3 : string) (b1 b2 b3 : list byte) :
  Base64.b64decode c1 = Ok b1 ->
  Base64.b64decode c2 = Ok b2 ->
  Base64.b64decode c3 = Ok b3 ->
  (exists s, combine_chunks [c1; c2; c3] = Ok s /\
             s = Base64.b64encode (b1 ++ b2 ++ b3) /\
             Base64.b64decode s = Ok (b1 ++ b2 ++ b3)) /\
  (exists d1 d2 d3 e1 e2 e3,
     Base64.b64decode d1 = Ok e1 /\
     Base64.b64decode d2 = Ok e2 /\
     Base64.b64decode d3 = Ok e3 /\
     Base64.b64decode (String.append d1 (String.append d2 d3)) <> Ok (e1 ++ e2 ++ e3)).
Proof.
  intros H1 H2 H3. split.
  - exists (Base64.b64encode (b1 ++ b2 ++ b3)). split; [|split].
    + rewrite (combine_chunks_concat [c1; c2; c3] [b1; b2; b3]).
      * simpl. by rewrite app_nil_r.
      * repeat constructor; assumption.
    + reflexivity.
    + apply b64decode_b64encode.
  - exists "QQ==", "Qg==", "Qw==", [x41], [x42], [x43].
    repeat split; try reflexivity. vm_compute. discriminate.
Qed.

Lemma combine_chunks_decodes_to_concatenation_witness :
  exists s, combine_chunks ["QQ=="; "Qg=="; "Qw=="] = Ok s /\
            s = Base64.b64encode ([x41] ++ [x42] ++ [x43]) /\
            Base64.b64decode s = Ok ([x41] ++ [x42] ++ [x43]).
Proof.
  apply (combine_chunks_decodes_to_concatenation
           "QQ==" "Qg==" "Qw==" [x41] [x42] [x43]); reflexivity.
Defined.

(** ** The merge and the order of its inputs *)




(** ** What the maps hold *)

Lemma audio_entries_app l1 l2 :
  audio_entries (l1 ++ l2) =
  (es1 ← audio_entries l1; es2 ← audio_entries l2; Ok (es1 ++ es2)).
Proof.
  induction l1 as [|seg l1 IH]; simpl.
  - by destruct (audio_entries l2).
  - destruct (audio_entry seg) as [e|]; simpl; [|done]. rewrite IH.
    destruct (audio_entries l1) as [es1|]; simpl; [|done].
    destruct (audio_entries l2) as [es2|]; simpl; [|done].
    by rewrite app_assoc.
Qed.

Lemma audio_entries_elem segs : forall es e,
  audio_entries segs = Ok es -> e ∈ es ->
  exists seg, seg ∈ segs /\ audio_entry seg = Ok (Some e).
Proof.
  induction segs as [|seg segs IH]; intros es e; cbn [audio_entries].
  - intros H. inversion H. by intros ?%elem_of_nil.
  - destruct (audio_entry seg) as [o|] eqn:Ho; [|done]. simpl.
    destruct (audio_entries segs) as [es'|]; [|done]. simpl.
    intros H. inversion H; subst es. clear H.
    rewrite elem_of_app. intros [He|He].
    + destruct o as [e'|]; simpl in He.
      * apply list_elem_of_singleton in He as ->.
        exists seg. split; [apply list_elem_of_here|done].
      * by apply elem_of_nil in He.
    + destruct (IH es' e eq_refl He) as (seg' & Hin & Hseg').
      exists seg'. split; [by apply list_elem_of_further|done].
Qed.

Lemma audio_entries_raise segs seg e :
  seg ∈ segs -> audio_entry seg = Raise e -> exists e', audio_entries segs = Raise e'.
Proof.
  induction 1 as [seg segs|seg seg' segs Hin IH]; intros He; cbn [audio_entries].
  - rewrite He. by eexists.
  - destruct (audio_entry seg') as [o|e0]; simpl; [|by eexists].
    destruct (IH He) as [e' ->]. by eexists.
Qed.

Lemma audio_entries_total segs :
  (forall seg, seg ∈ segs -> is_Ok (audio_entry seg)) -> is_Ok (audio_entries segs).
Proof.
  induction segs as [|seg segs IH]; intros Hall; cbn [audio_entries].
  - by eexists.
  - destruct (Hall seg) as [o ->]; [apply list_elem_of_here|]. simpl.
    destruct IH as [es ->]; [|by eexists].
    intros seg' Hin. apply Hall. by apply list_elem_of_further.
Qed.

Lemma foldl_insert_entry_elem {V} (es : list (Z * V)) k v :
  foldl insert_entry (∅ : gmap Z V) es !! k = Some v -> (k, v) ∈ es.
Proof.
  rewrite foldl_insert_entry, (right_id_L ∅ (∪)).
  intros H. apply elem_of_reverse. apply (elem_of_list_to_map_2 _ _ _ H).
Qed.

Lemma map_content_segments_dom content k :
  is_Some (map_content_segments content !! k) <-> k ∈ omap segment_id content.
Proof.
  by rewrite map_content_segments_entries, foldl_insert_entry_dom, content_entry_keys.
Qed.

Lemma decode_chunks_raise chunks chunk e :
  chunk ∈ chunks -> Base64.b64decode chunk = Raise e ->
  forall combined_binary, exists e', decode_chunks chunks combined_binary = Raise e'.
Proof.
  induction 1 as [chunk chunks|chunk chunk' chunks Hin IH]; intros He acc;
    cbn [decode_chunks].
  - rewrite He. by eexists.
  - destruct (Base64.b64decode chunk') as [b|e0]; simpl; [|by eexists].
    by apply IH.
Qed.

Lemma String_eqb_empty (s : string) : String.eqb s "" = false <-> s <> "".
Proof. apply String.eqb_neq. Qed.

Lemma audio_entries_usable audio :
  forallb usable_audio_record audio = true ->
  exists es, audio_entries audio = Ok es /\
             es.*1 = omap segment_id audio /\
             Forall (fun e => ad_audio_base64 e.2 <> "") es.
Proof.
  induction audio as [|seg audio IH]; intros Hall.
  - exists []. by repeat split.
  - cbn [forallb] in Hall. apply andb_prop in Hall as [Hseg Hall].
    destruct (IH Hall) as (es & Hes & Hkeys & Hne). clear IH.
    change (omap segment_id (seg :: audio))
      with (match segment_id seg with
            | Some k => k :: omap segment_id audio
            | None => omap segment_id audio
            end).
    cbn [audio_entries]. unfold audio_entry, usable_audio_record in *.
    rewrite Hes. destruct (segment_id seg) as [sid|]; simpl.
    + destruct (stored_audio (audio_base64 seg)) as [[s|]|]; try done. simpl.
      exists ((sid, audio_data_of s) :: es). split; [done|].
      split; [by rewrite fmap_cons, Hkeys|].
      constructor; [|done]. simpl. apply String_eqb_empty.
      by apply negb_true_iff.
    + by exists es.
Qed.

Lemma merge_segments_ids_subset audio content out sid :
  merge_segments audio content = Ok out ->
  sid ∈ cs_segment_id <$> out ->
  sid ∈ omap segment_id audio /\ sid ∈ omap segment_id content.
Proof.
  rewrite merge_segments_entries.
  destruct (audio_entries audio) as [es|] eqn:Hes; [|done]. simpl.
  intros H. inversion H; subst out. clear H.
  intros (x & -> & Hx)%list_elem_of_fmap.
  apply list_elem_of_In, filter_In in Hx as [Hx _].
  apply list_elem_of_In, elem_of_combine_segments in Hx.
  unfold combined_segment in Hx.
  destruct (foldl insert_entry ∅ es !! cs_segment_id x) as [ad|] eqn:Had; [|done].
  simpl in Hx.
  destruct (foldl insert_entry ∅ (omap content_entry content) !! cs_segment_id x)
    as [cd|] eqn:Hcd; [|done].
  split.
  - apply foldl_insert_entry_elem in Had.
    pose proof (audio_entries_keys audio es Hes) as Hsub.
    apply (sublist_subseteq _ _ Hsub).
    apply list_elem_of_fmap. by exists (cs_segment_id x, ad).
  - apply map_content_segments_dom. rewrite map_content_segments_entries.
    by eexists.
Qed.

(** C4, as the code has it. The identifiers of the merged output always
    lie in the intersection of the identifiers of the audio list and of
    the content list; and they are exactly that intersection when every
    audio record with an identifier carries usable audio. *)
Theorem merged_ids_are_common_ids (audio content : list SegmentRecord) :
  (forall out sid,
     merge_segments audio content = Ok out ->
     sid ∈ cs_segment_id <$> out ->
     sid ∈ omap segment_id audio /\ sid ∈ omap segment_id content) /\
  (forallb usable_audio_record audio = true ->
   exists out,
     merge_segments audio content = Ok out /\
     forall sid, sid ∈ cs_segment_id <$> out <->
                 sid ∈ omap segment_id audio /\ sid ∈ omap segment_id content).
Proof.
  split.
  - intros out sid. apply merge_segments_ids_subset.
  - intros Husable.
    destruct (audio_entries_usable audio Husable) as (es & Hes & Hkeys & Hne).
    pose proof (merge_segments_entries audio content) as Hm.
    rewrite Hes in Hm. simpl in Hm.
    eexists. split; [exact Hm|]. intros sid. split.
    + apply merge_segments_ids_subset. exact Hm.
    + intros [Ha Hc]. rewrite <- Hkeys in Ha.
      apply foldl_insert_entry_dom in Ha as [ad Had].
      apply map_content_segments_dom in Hc as [cd Hcd].
      rewrite map_content_segments_entries in Hcd.
      apply list_elem_of_fmap.
      exists {| cs_segment_id := sid;
                audioBase64 := ad_audio_base64 ad;
                imageUrl := cd_image_url cd;
                cs_narration := cd_narration cd;
                cs_duration := cd_duration cd |}.
      split; [done|].
      apply list_elem_of_In, filter_In. split.
      * apply list_elem_of_In, elem_of_combine_segments. simpl.
        unfold combined_segment. by rewrite Had, Hcd.
      * unfold valid_segment. simpl. apply negb_true_iff, String_eqb_empty.
        apply foldl_insert_entry_elem in Had.
        rewrite Forall_forall in Hne. apply (Hne _ Had).
Qed.

Lemma merged_ids_are_common_ids_witness :
  exists out,
    merge_segments [audio_seg 1 (AudioStr "QQ=="); audio_seg 3 (AudioChunks ["Qg=="; "Qw=="])]
      [content_seg 3 "three"; content_seg 2 "two"] = Ok out /\
    forall sid,
      sid ∈ cs_segment_id <$> out <->
      sid ∈ omap segment_id
              [audio_seg 1 (AudioStr "QQ=="); audio_seg 3 (AudioChunks ["Qg=="; "Qw=="])] /\
      sid ∈ omap segment_id [content_seg 3 "three"; content_seg 2 "two"].
Proof.
  apply (merged_ids_are_common_ids
           [audio_seg 1 (AudioStr "QQ=="); audio_seg 3 (AudioChunks ["Qg=="; "Qw=="])]
           [content_seg 3 "three"; content_seg 2 "two"]).
  reflexivity.
Defined.

(** C4 as stated fails: identifier 2 is present in the audio list and in
    the content list, but its audio record has no audio and the output
    does not contain it. *)
Lemma common_id_without_audio_is_dropped :
  ~ (forall (audio content : list SegmentRecord) out sid,
       merge_segments audio content = Ok out ->
       (sid ∈ cs_segment_id <$> out <->
        sid ∈ omap segment_id audio /\ sid ∈ omap segment_id content)).
Proof.
  intros H.
  specialize (H [audio_seg 1 (AudioStr "QQ=="); audio_seg 2 AudioAbsent]
                [content_seg 1 "one"; content_seg 2 "two"]
                [ {| cs_segment_id := 1; audioBase64 := "QQ=="; imageUrl := None;
                     cs_narration := "one"; cs_duration := None |} ]
                2%Z).
  destruct H as [_ H]; [vm_compute; reflexivity|].
  assert (2%Z ∈ [1%Z]) as Hin.
  { apply H. split; apply list_elem_of_further, list_elem_of_here. }
  apply list_elem_of_singleton in Hin. discriminate.
Qed.

(** ** Duplicate identifiers *)

Lemma stored_audio_entry seg sid s :
  segment_id seg = Some sid -> stored_audio (audio_base64 seg) = Ok (Some s) ->
  audio_entry seg = Ok (Some (sid, audio_data_of s)).
Proof. unfold audio_entry. by intros -> ->. Qed.

Lemma stored_audio_no_entry seg sid :
  segment_id seg = Some sid -> stored_audio (audio_base64 seg) = Ok None ->
  audio_entry seg = Ok None.
Proof. unfold audio_entry. by intros -> ->. Qed.

Lemma map_audio_segments_last l1 seg l2 sid s m :
  segment_id seg = Some sid ->
  stored_audio (audio_base64 seg) = Ok (Some s) ->
  (forall seg', seg' ∈ l2 -> segment_id seg' = Some sid ->
                stored_audio (audio_base64 seg') = Ok None) ->
  map_audio_segments (l1 ++ seg :: l2) ∅ = Ok m ->
  m !! sid = Some (audio_data_of s).
Proof.
  intros Hid Hs Hlater. rewrite map_audio_segments_entries, audio_entries_app.
  destruct (audio_entries l1) as [es1|]; [|done]. simpl.
  rewrite (stored_audio_entry seg sid s Hid Hs). simpl.
  destruct (audio_entries l2) as [es2|] eqn:Hes2; [|done]. simpl.
  intros H. inversion H. clear H.
  apply foldl_insert_entry_last. intros [k d] Hin Hk. simpl in Hk. subst k.
  destruct (audio_entries_elem l2 es2 _ Hes2 Hin) as (seg' & Hin' & He).
  pose proof (audio_entry_key _ _ _ He) as Hid'.
  rewrite (stored_audio_no_entry seg' sid Hid' (Hlater seg' Hin' Hid')) in He.
  discriminate.
Qed.






(** ** A single audio string *)

Lemma decode_chunks_total chunks :
  (forall c, c ∈ chunks -> is_Ok (Base64.b64decode c)) ->
  forall combined_binary, is_Ok (decode_chunks chunks combined_binary).
Proof.
  induction chunks as [|c chunks IH]; intros Hall acc; cbn [decode_chunks].
  - by eexists.
  - destruct (Hall c) as [b ->]; [apply list_elem_of_here|]. simpl.
    apply IH. intros c' Hc'. apply Hall. by apply list_elem_of_further.
Qed.

Lemma stored_audio_total a :
  (forall chunks c, a = AudioChunks chunks -> c ∈ chunks ->
                    is_Ok (Base64.b64decode c)) ->
  is_Ok (stored_audio a).
Proof.
  intros Hall. unfold stored_audio.
  destruct (negb (truthy_audio a)); [by eexists|].
  destruct a as [|s|chunks|t]; try by eexists.
  unfold combine_chunks.
  destruct (decode_chunks_total chunks (fun c => Hall chunks c eq_refl) []) as [b ->].
  by eexists.
Qed.

Lemma merge_segments_total_with_ids audio content :
  (forall seg chunks c,
     seg ∈ audio -> is_Some (segment_id seg) ->
     audio_base64 seg = AudioChunks chunks ->
     c ∈ chunks -> is_Ok (Base64.b64decode c)) ->
  is_Ok (merge_segments audio content).
Proof.
  intros Hall. rewrite merge_segments_entries.
  destruct (audio_entries_total audio) as [es ->]; [|by eexists].
  intros seg Hin. unfold audio_entry.
  destruct (segment_id seg) as [sid|] eqn:Hid; [|by eexists].
  destruct (stored_audio_total (audio_base64 seg)) as [o ->]; [|by eexists].
  intros chunks c. apply Hall; [done|]. rewrite Hid. by eexists.
Qed.

(** C8, as the code has it. A single-string [audio_base64] is neither
    decoded nor stripped: when the record is the last one of its
    identifier and the content list has the identifier, every output of
    the merge has a segment with that identifier that carries the string
    as it came. The merge gives an output unless a chunk of some other
    audio record with an identifier does not decode. *)
Theorem single_string_audio_passed_through (l1 l2 content : list SegmentRecord)
    (seg : SegmentRecord) (sid : Z) (s : string) :
  segment_id seg = Some sid ->
  audio_base64 seg = AudioStr s ->
  s <> "" ->
  (forall seg', seg' ∈ l2 -> segment_id seg' <> Some sid) ->
  sid ∈ omap segment_id content ->
  (forall out,
     merge_segments (l1 ++ seg :: l2) content = Ok out ->
     exists x, x ∈ out /\ cs_segment_id x = sid /\ audioBase64 x = s) /\
  ((forall seg' chunks c,
      seg' ∈ l1 ++ l2 -> is_Some (segment_id seg') ->
      audio_base64 seg' = AudioChunks chunks ->
      c ∈ chunks -> is_Ok (Base64.b64decode c)) ->
   is_Ok (merge_segments (l1 ++ seg :: l2) content)).
Proof.
  intros Hid Ha Hs Hlater Hc. split.
  - intros out Hm.
    assert (stored_audio (audio_base64 seg) = Ok (Some s)) as Hstored.
    { rewrite Ha. unfold stored_audio. simpl.
      apply String_eqb_empty in Hs. by rewrite Hs. }
    unfold merge_segments in Hm.
    destruct (map_audio_segments (l1 ++ seg :: l2) ∅) as [m|] eqn:Hmap; [|done].
    simpl in Hm. inversion Hm; subst out. clear Hm.
    assert (m !! sid = Some (audio_data_of s)) as Hm2.
    { apply (map_audio_segments_last l1 seg l2 sid s m Hid Hstored); [|done].
      intros seg' Hin Hid'. by destruct (Hlater seg' Hin). }
    apply map_content_segments_dom in Hc as [cd Hcd].
    exists {| cs_segment_id := sid; audioBase64 := s;
              imageUrl := cd_image_url cd;
              cs_narration := cd_narration cd;
              cs_duration := cd_duration cd |}.
    split; [|done].
    apply list_elem_of_In, filter_In. split.
    + apply list_elem_of_In, elem_of_combine_segments. simpl.
      unfold combined_segment. by rewrite Hm2, Hcd.
    + unfold valid_segment. simpl. by apply negb_true_iff, String_eqb_empty.
  - intros Hdec. apply merge_segments_total_with_ids.
    intros seg' chunks c Hin Hsome Hchunks.
    apply elem_of_app in Hin as [Hin|Hin].
    + apply (Hdec seg' chunks c); [|done|done]. apply elem_of_app. by left.
    + apply elem_of_cons in Hin as [->|Hin]; [congruence|].
      apply (Hdec seg' chunks c); [|done|done]. apply elem_of_app. by right.
Qed.

Lemma single_string_audio_passed_through_witness :
  (forall out,
     merge_segments
       ([ {| segment_id := None; audio_base64 := AudioChunks ["Q"];
             narration := None; image_url := None; duration := None |} ] ++
        audio_seg 1 (AudioStr "data:audio/mpeg;base64,QQ==") :: [])
       [content_seg 1 "one"] = Ok out ->
     exists x, x ∈ out /\ cs_segment_id x = 1%Z /\
               audioBase64 x = "data:audio/mpeg;base64,QQ==") /\
  is_Ok (merge_segments
           ([ {| segment_id := None; audio_base64 := AudioChunks ["Q"];
                 narration := None; image_url := None; duration := None |} ] ++
            audio_seg 1 (AudioStr "data:audio/mpeg;base64,QQ==") :: [])
           [content_seg 1 "one"]).
Proof.
  destruct (single_string_audio_passed_through
              [ {| segment_id := None; audio_base64 := AudioChunks ["Q"];
                   narration := None; image_url := None; duration := None |} ]
              [] [content_seg 1 "one"]
              (audio_seg 1 (AudioStr "data:audio/mpeg;base64,QQ==")) 1
              "data:audio/mpeg;base64,QQ==" eq_refl eq_refl) as [H1 H2].
  - discriminate.
  - intros seg' Hin. by apply elem_of_nil in Hin.
  - apply list_elem_of_here.
  - split; [exact H1|]. apply H2.
    intros seg' chunks c Hin Hsome. simpl in Hin.
    apply list_elem_of_singleton in Hin. subst seg'.
    destruct Hsome as [k Hk]. discriminate.
Defined.

(** C8 as stated fails: a data-URI prefix is still there in the output. *)
Lemma data_uri_prefix_is_kept :
  ~ (forall (audio content : list SegmentRecord) out x,
       merge_segments audio content = Ok out -> x ∈ out ->
       has_data_uri_prefix (audioBase64 x) = false).
Proof.
  intros H.
  specialize (H [audio_seg 1 (AudioStr "data:audio/mpeg;base64,QQ==")]
                [content_seg 1 "one"]
                [ {| cs_segment_id := 1;
                     audioBase64 := "data:audio/mpeg;base64,QQ==";
                     imageUrl := None; cs_narration := "one";
                     cs_duration := None |} ]
                {| cs_segment_id := 1;
                   audioBase64 := "data:audio/mpeg;base64,QQ==";
                   imageUrl := None; cs_narration := "one";
                   cs_duration := None |}).
  discriminate H; [vm_compute; reflexivity|apply list_elem_of_here].
Qed.

(** ** A chunk that does not decode *)

Lemma merge_segments_raise audio content seg sid chunks chunk e :
  seg ∈ audio -> segment_id seg = Some sid ->
  audio_base64 seg = AudioChunks chunks ->
  chunk ∈ chunks -> Base64.b64decode chunk = Raise e ->
  exists e', merge_segments audio content = Raise e'.
Proof.
  intros Hin Hid Ha Hchunk He.
  assert (exists e', audio_entry seg = Raise e') as [e1 He1].
  { destruct (decode_chunks_raise chunks chunk e Hchunk He []) as [e' He'].
    unfold audio_entry, stored_audio, combine_chunks. rewrite Hid, Ha, He'.
    destruct chunks as [|c chunks]; [by apply elem_of_nil in Hchunk|].
    by exists e'. }
  destruct (audio_entries_raise audio seg e1 Hin He1) as [e2 He2].
  rewrite merge_segments_entries, He2. by eexists.
Qed.

(** C1, as the code has it. Once both [segments] arrays are validated
    and the roles detected, a chunk that fails to decode in any
    audio-role record with an identifier makes the whole request fail
    with the 500 "Internal server error" response: nothing is merged and
    no segment is reported on its own. *)
Theorem chunk_decode_failure_fails_request
    (parsed_result0 parsed_result1 : ParsedOutput) (userInput : string)
    (roles : Roles) (seg : SegmentRecord) (sid : Z)
    (chunks : list string) (chunk : string) (e : exn) :
  validate_segments [(get_segments parsed_result0, 0%nat);
                     (get_segments parsed_result1, 1%nat)] = None ->
  detect_roles parsed_result0 parsed_result1
    (segments_list (get_segments parsed_result0))
    (segments_list (get_segments parsed_result1)) = Some roles ->
  seg ∈ audio_segments roles ->
  segment_id seg = Some sid ->
  audio_base64 seg = AudioChunks chunks ->
  chunk ∈ chunks ->
  Base64.b64decode chunk = Raise e ->
  exists e', generate_lesson parsed_result0 parsed_result1 userInput =
             JSONResponse 500 (InternalServerError e').
Proof.
  intros Hv Hr Hin Hid Ha Hchunk He. unfold generate_lesson. cbv zeta.
  rewrite Hv, Hr.
  destruct (merge_segments_raise (audio_segments roles) (content_segments roles)
              seg sid chunks chunk e Hin Hid Ha Hchunk He) as [e' ->].
  by exists e'.
Qed.

Lemma chunk_decode_failure_fails_request_witness :
  exists e', generate_lesson sample_chunked_audio sample_content "topic" =
             JSONResponse 500 (InternalServerError e').
Proof.
  apply (chunk_decode_failure_fails_request sample_chunked_audio sample_content "topic"
           {| audio_result_index := 0; content_result_index := 1;
              audio_segments := segments_list (get_segments sample_chunked_audio);
              content_segments := segments_list (get_segments sample_content);
              audio_parsed := sample_chunked_audio;
              content_parsed := sample_content |}
           (audio_seg 2 (AudioChunks ["Qg=="; "Q"])) 2 ["Qg=="; "Q"] "Q"
           binascii_Error_invalid_length).
  - reflexivity.
  - reflexivity.
  - apply list_elem_of_further, list_elem_of_here.
  - reflexivity.
  - reflexivity.
  - apply list_elem_of_further, list_elem_of_here.
  - reflexivity.
Defined.

(** C1 as stated fails: segment 1 is valid and segment 2 has a chunk that
    does not decode; the request does not succeed with segment 1, it
    fails as a whole. *)
Lemma chunk_decode_failure_is_not_scoped_to_segment :
  Base64.b64decode "Q" = Raise binascii_Error_invalid_length /\
  combine_chunks ["QQ=="] = Ok "QQ==" /\
  generate_lesson sample_chunked_audio sample_content "topic" =
    JSONResponse 500 (InternalServerError binascii_Error_invalid_length) /\
  ~ (exists body, generate_lesson sample_chunked_audio sample_content "topic" =
                  Success body).
Proof.
  repeat split; try reflexivity.
  intros [body H]. vm_compute in H. discriminate.
Qed.

(** ** Validation of the [segments] arrays *)

Lemma generate_lesson_check0 parsed_result0 parsed_result1 userInput r :
  check_segments (get_segments parsed_result0) 0 = Some r ->
  generate_lesson parsed_result0 parsed_result1 userInput = r.
Proof. intros H. unfold generate_lesson. simpl. by rewrite H. Qed.

Lemma generate_lesson_check1 parsed_result0 parsed_result1 userInput r :
  check_segments (get_segments parsed_result0) 0 = None ->
  check_segments (get_segments parsed_result1) 1 = Some r ->
  generate_lesson parsed_result0 parsed_result1 userInput = r.
Proof. intros H0 H1. unfold generate_lesson. simpl. by rewrite H0, H1. Qed.

(** C5, as the code has it. A [segments] value that is present but not a
    list is rejected as "not a list" for its slot; a missing [segments]
    key reads as the default empty list and is rejected as "empty". Both
    are status 500 responses of the request (for slot 1, when slot 0
    passed its checks). *)
Theorem segments_not_list_or_missing (parsed other : ParsedOutput)
    (userInput : string) (idx : nat) :
  (segments parsed = Some SegmentsNotList ->
   check_segments (get_segments parsed) idx =
     Some (JSONResponse 500 (SegmentsNotAList idx)) /\
   generate_lesson parsed other userInput = JSONResponse 500 (SegmentsNotAList 0) /\
   (check_segments (get_segments other) 0 = None ->
    generate_lesson other parsed userInput = JSONResponse 500 (SegmentsNotAList 1))) /\
  (segments parsed = None ->
   check_segments (get_segments parsed) idx =
     Some (JSONResponse 500 (SegmentsEmpty idx)) /\
   generate_lesson parsed other userInput = JSONResponse 500 (SegmentsEmpty 0) /\
   (check_segments (get_segments other) 0 = None ->
    generate_lesson other parsed userInput = JSONResponse 500 (SegmentsEmpty 1))).
Proof.
  split; intros Hs.
  - assert (forall i, check_segments (get_segments parsed) i =
                      Some (JSONResponse 500 (SegmentsNotAList i))) as Hc.
    { intros i. unfold get_segments. by rewrite Hs. }
    split; [apply Hc|]. split.
    + apply generate_lesson_check0, Hc.
    + intros H0. by apply generate_lesson_check1.
  - assert (forall i, check_segments (get_segments parsed) i =
                      Some (JSONResponse 500 (SegmentsEmpty i))) as Hc.
    { intros i. unfold get_segments. by rewrite Hs. }
    split; [apply Hc|]. split.
    + apply generate_lesson_check0, Hc.
    + intros H0. by apply generate_lesson_check1.
Qed.

Lemma segments_not_list_or_missing_witness :
  (check_segments (get_segments {| topic := None; segments := Some SegmentsNotList |}) 1 =
     Some (JSONResponse 500 (SegmentsNotAList 1)) /\
   generate_lesson {| topic := None; segments := Some SegmentsNotList |}
     sample_content "topic" = JSONResponse 500 (SegmentsNotAList 0) /\
   (check_segments (get_segments sample_content) 0 = None ->
    generate_lesson sample_content {| topic := None; segments := Some SegmentsNotList |}
      "topic" = JSONResponse 500 (SegmentsNotAList 1))) /\
  (check_segments (get_segments {| topic := None; segments := None |}) 1 =
     Some (JSONResponse 500 (SegmentsEmpty 1)) /\
   generate_lesson {| topic := None; segments := None |}
     sample_content "topic" = JSONResponse 500 (SegmentsEmpty 0) /\
   (check_segments (get_segments sample_content) 0 = None ->
    generate_lesson sample_content {| topic := None; segments := None |}
      "topic" = JSONResponse 500 (SegmentsEmpty 1))).
Proof.
  split.
  - apply (segments_not_list_or_missing
             {| topic := None; segments := Some SegmentsNotList |}
             sample_content "topic" 1). reflexivity.
  - apply (segments_not_list_or_missing
             {| topic := None; segments := None |}
             sample_content "topic" 1). reflexivity.
Defined.

(** C5 as stated fails: with the [segments] key missing, the response is
    the "segments is empty" one, not the "not a list" one. *)
Lemma missing_segments_reported_as_empty :
  ~ (forall (parsed : ParsedOutput) (idx : nat),
       segments parsed = None ->
       check_segments (get_segments parsed) idx =
         Some (JSONResponse 500 (SegmentsNotAList idx))).
Proof.
  intros H.
  specialize (H {| topic := Some "t"; segments := None |} 0%nat eq_refl).
  discriminate.
Qed.

(** C6. A [segments] value that is the empty list is rejected with the
    "segments is empty" response, status 500, for its slot; the request
    is answered with it (for slot 1, when slot 0 passed its checks), and
    in no case with a success. *)
Theorem empty_segments_rejected (parsed other : ParsedOutput)
    (userInput : string) (idx : nat) :
  segments parsed = Some (SegmentsList []) ->
  check_segments (get_segments parsed) idx =
    Some (JSONResponse 500 (SegmentsEmpty idx)) /\
  generate_lesson parsed other userInput = JSONResponse 500 (SegmentsEmpty 0) /\
  (check_segments (get_segments other) 0 = None ->
   generate_lesson other parsed userInput = JSONResponse 500 (SegmentsEmpty 1)) /\
  (exists err, generate_lesson other parsed userInput = JSONResponse 500 err).
Proof.
  intros Hs.
  assert (forall i, check_segments (get_segments parsed) i =
                    Some (JSONResponse 500 (SegmentsEmpty i))) as Hc.
  { intros i. unfold get_segments. by rewrite Hs. }
  split; [apply Hc|]. split; [apply generate_lesson_check0, Hc|]. split.
  - intros H0. by apply generate_lesson_check1.
  - destruct (check_segments (get_segments other) 0) as [r|] eqn:H0.
    + rewrite (generate_lesson_check0 other parsed userInput r H0).
      unfold check_segments in H0. destruct (get_segments other) as [|l].
      * inversion H0. by eexists.
      * destruct (length l =? 0)%nat; [|done]. inversion H0. by eexists.
    + rewrite (generate_lesson_check1 other parsed userInput _ H0 (Hc 1%nat)).
      by eexists.
Qed.

Lemma empty_segments_rejected_witness :
  check_segments (get_segments (parsed_of [])) 1 =
    Some (JSONResponse 500 (SegmentsEmpty 1)) /\
  generate_lesson (parsed_of []) sample_content "topic" =
    JSONResponse 500 (SegmentsEmpty 0) /\
  (check_segments (get_segments sample_content) 0 = None ->
   generate_lesson sample_content (parsed_of []) "topic" =
     JSONResponse 500 (SegmentsEmpty 1)) /\
  (exists err, generate_lesson sample_content (parsed_of []) "topic" =
               JSONResponse 500 err).
Proof.
  apply (empty_segments_rejected (parsed_of []) sample_content "topic" 1).
  reflexivity.
Defined.

(** ** Role detection *)

(** C7. When exactly one of two segment lists has audio among its first
    five records, detection succeeds with the arguments in either order
    and names the same list as the audio list (the one that has audio)
    and the same list as the content list; only the result indices
    follow the argument positions. *)
Theorem detect_roles_symmetric (pA pB : ParsedOutput) (A B : list SegmentRecord) :
  has_audio_base64 A = negb (has_audio_base64 B) ->
  exists rAB rBA,
    detect_roles pA pB A B = Some rAB /\
    detect_roles pB pA B A = Some rBA /\
    audio_segments rAB = audio_segments rBA /\
    content_segments rAB = content_segments rBA /\
    audio_parsed rAB = audio_parsed rBA /\
    content_parsed rAB = content_parsed rBA /\
    audio_segments rAB = (if has_audio_base64 A then A else B) /\
    audio_result_index rAB = (if has_audio_base64 A then 0 else 1)%nat /\
    audio_result_index rBA = (if has_audio_base64 A then 1 else 0)%nat /\
    has_audio_base64 A = has_audio_base64 (take 5 A) /\
    has_audio_base64 B = has_audio_base64 (take 5 B).
Proof.
  intros H.
  assert (forall l, has_audio_base64 l = has_audio_base64 (take 5 l)) as Htake.
  { intros l. unfold has_audio_base64. by rewrite take_take. }
  unfold detect_roles. cbv zeta. rewrite H.
  destruct (has_audio_base64 B) eqn:HB; simpl; do 2 eexists;
    repeat split; try apply Htake; by rewrite <- Htake.
Qed.

Lemma detect_roles_symmetric_witness :
  exists rAB rBA,
    detect_roles sample_chunked_audio sample_content
      (segments_list (get_segments sample_chunked_audio))
      (segments_list (get_segments sample_content)) = Some rAB /\
    detect_roles sample_content sample_chunked_audio
      (segments_list (get_segments sample_content))
      (segments_list (get_segments sample_chunked_audio)) = Some rBA /\
    audio_segments rAB = audio_segments rBA /\
    content_segments rAB = content_segments rBA /\
    audio_parsed rAB = audio_parsed rBA /\
    content_parsed rAB = content_parsed rBA /\
    audio_segments rAB =
      (if has_audio_base64 (segments_list (get_segments sample_chunked_audio))
       then segments_list (get_segments sample_chunked_audio)
       else segments_list (get_segments sample_content)) /\
    audio_result_index rAB =
      (if has_audio_base64 (segments_list (get_segments sample_chunked_audio))
       then 0 else 1)%nat /\
    audio_result_index rBA =
      (if has_audio_base64 (segments_list (get_segments sample_chunked_audio))
       then 1 else 0)%nat /\
    has_audio_base64 (segments_list (get_segments sample_chunked_audio)) =
      has_audio_base64 (take 5 (segments_list (get_segments sample_chunked_audio))) /\
    has_audio_base64 (segments_list (get_segments sample_content)) =
      has_audio_base64 (take 5 (segments_list (get_segments sample_content))).
Proof.
  apply (detect_roles_symmetric sample_chunked_audio sample_content
           (segments_list (get_segments sample_chunked_audio))
           (segments_list (get_segments sample_content))).
  reflexivity.
Defined.

(** ** Quiz question numbering *)

Section QuizFacts.
Local Open Scope Z_scope.

Lemma format_question_app acc idx question_data :
  format_question acc idx question_data =
  acc ++ option_list (formatted_question idx question_data).
Proof.
  unfold format_question, formatted_question, resolved_index. cbv zeta.
  destruct (_ =? -1); simpl; [by rewrite app_nil_r|done].
Qed.

Lemma elem_of_format_questions_from quiz_array : forall idx acc q,
  q ∈ format_questions_from idx quiz_array acc <->
  q ∈ acc \/
  exists i question_data,
    quiz_array !! i = Some question_data /\
    formatted_question (idx + i) question_data = Some q.
Proof.
  induction quiz_array as [|qd quiz_array IH]; intros idx acc q;
    cbn [format_questions_from].
  - split; [by left|]. intros [H|(i & qd & H & _)]; [done|].
    by rewrite lookup_nil in H.
  - rewrite IH, format_question_app, elem_of_app. split.
    + intros [[H|H]|(i & qd' & Hi & Hq)].
      * by left.
      * right. exists 0%nat, qd. split; [done|].
        rewrite Nat.add_0_r. destruct (formatted_question idx qd); simpl in H.
        -- apply list_elem_of_singleton in H. by subst.
        -- by apply elem_of_nil in H.
      * right. exists (S i), qd'. split; [done|].
        by rewrite Nat.add_succ_r.
    + intros [H|(i & qd' & Hi & Hq)]; [by left; left|].
      destruct i as [|i]; simpl in Hi.
      * inversion Hi; subst qd'. rewrite Nat.add_0_r in Hq.
        left; right. rewrite Hq. apply list_elem_of_here.
      * right. exists i, qd'. split; [done|].
        by rewrite Nat.add_succ_r in Hq.
Qed.

Lemma format_questions_from_sorted quiz_array : forall idx acc,
  StronglySorted Z.lt (question_id <$> acc) ->
  Forall (fun q => question_id q <= Z.of_nat idx) acc ->
  StronglySorted Z.lt (question_id <$> format_questions_from idx quiz_array acc).
Proof.
  induction quiz_array as [|qd quiz_array IH]; intros idx acc Hs Hb;
    cbn [format_questions_from]; [done|].
  apply IH; rewrite format_question_app.
  - rewrite fmap_app. apply StronglySorted_app_2; [|done|].
    + intros x1 x2 Hx1 Hx2.
      apply list_elem_of_fmap in Hx1 as (q1 & -> & Hq1).
      rewrite Forall_forall in Hb. specialize (Hb q1 Hq1).
      unfold formatted_question in Hx2.
      destruct (resolved_index qd =? -1); simpl in Hx2;
        [by apply elem_of_nil in Hx2|].
      apply list_elem_of_singleton in Hx2. subst x2. simpl. lia.
    + destruct (formatted_question idx qd); simpl; repeat constructor.
  - apply Forall_app. split.
    + eapply Forall_impl; [exact Hb|]. simpl. intros; lia.
    + unfold formatted_question.
      destruct (resolved_index qd =? -1); simpl; repeat constructor.
      simpl. lia.
Qed.
End QuizFacts.

(** C9, as the code has it. The [id] of an emitted question is the
    1-based position of its entry in the quiz array: every emitted
    question comes from an entry with a resolved answer and carries that
    entry's position plus one, every such entry is emitted with it, and
    the ids are strictly increasing in output order; nothing is
    renumbered after a drop. *)
Theorem question_ids_are_original_positions (quiz_array : list QuestionData) :
  (forall q, q ∈ format_questions quiz_array ->
     exists i question_data,
       quiz_array !! i = Some question_data /\
       resolved_index question_data <> (-1)%Z /\
       question_id q = (Z.of_nat i + 1)%Z /\
       question_text q = default "" (question question_data) /\
       question_options q = default [] (options question_data) /\
       correctAnswer q = resolved_index question_data) /\
  (forall i question_data,
     quiz_array !! i = Some question_data ->
     resolved_index question_data <> (-1)%Z ->
     exists q, q ∈ format_questions quiz_array /\
               question_id q = (Z.of_nat i + 1)%Z /\
               question_text q = default "" (question question_data)) /\
  StronglySorted Z.lt (question_id <$> format_questions quiz_array).
Proof.
  unfold format_questions. split; [|split].
  - intros q Hq. apply elem_of_format_questions_from in Hq
      as [Hq|(i & qd & Hi & Hq)]; [by apply elem_of_nil in Hq|].
    exists i, qd. split; [done|]. simpl in Hq. unfold formatted_question in Hq.
    destruct (resolved_index qd =? -1)%Z eqn:E; [done|].
    apply Z.eqb_neq in E. inversion Hq; subst q. by simpl.
  - intros i qd Hi Hr. apply Z.eqb_neq in Hr.
    eexists. split.
    + apply elem_of_format_questions_from. right. exists i, qd. split; [done|].
      unfold formatted_question. rewrite Hr. simpl. reflexivity.
    + by simpl.
  - apply format_questions_from_sorted; constructor.
Qed.

Lemma question_ids_are_original_positions_witness :
  exists q, q ∈ format_questions sample_quiz /\
            question_id q = (Z.of_nat 1 + 1)%Z /\
            question_text q = "Capital of Germany?".
Proof.
  destruct (question_ids_are_original_positions sample_quiz) as (_ & H & _).
  apply (H 1%nat {| question := Some "Capital of Germany?";
                    options := Some ["Paris"; "London"; "Berlin"];
                    correct_answer := Some "berlin" |}).
  - reflexivity.
  - vm_compute. discriminate.
Defined.

(** C9 as stated fails: the first entry is dropped and the only emitted
    question has id 2, not 1. *)
Lemma question_ids_not_renumbered :
  ~ (forall quiz_array : list QuestionData,
       question_id <$> format_questions quiz_array =
       (fun i => Z.of_nat i + 1)%Z <$> seq 0 (length (format_questions quiz_array))).
Proof.
  intros H. specialize (H sample_quiz). vm_compute in H. discriminate.
Qed.

(** * Further properties of the handlers *)

(** ** What a merged segment is made of *)

Lemma stored_audio_cases a s :
  stored_audio a = Ok (Some s) ->
  a = AudioStr s \/ exists chunks, a = AudioChunks chunks /\ combine_chunks chunks = Ok s.
Proof.
  unfold stored_audio. destruct (negb (truthy_audio a)); [done|].
  destruct a as [|s'|chunks|t]; try done.
  - intros H. inversion H. by left.
  - destruct (combine_chunks chunks) as [s'|] eqn:Hc; [|done]. simpl.
    intros H. inversion H; subst s'. right. by exists chunks.
Qed.

Lemma elem_of_merge_segments audio content out x :
  merge_segments audio content = Ok out -> x ∈ out ->
  audioBase64 x <> "" /\
  exists es ad cd,
    audio_entries audio = Ok es /\
    (cs_segment_id x, ad) ∈ es /\
    (cs_segment_id x, cd) ∈ omap content_entry content /\
    audioBase64 x = ad_audio_base64 ad /\
    cs_narration x = cd_narration cd /\
    imageUrl x = cd_image_url cd /\
    cs_duration x = cd_duration cd.
Proof.
  rewrite merge_segments_entries.
  destruct (audio_entries audio) as [es|] eqn:Hes; [|done]. simpl.
  intros H. inversion H; subst out. clear H. intros Hx.
  apply list_elem_of_In, filter_In in Hx as [Hx Hvalid].
  apply list_elem_of_In, elem_of_combine_segments in Hx.
  split.
  { unfold valid_segment in Hvalid. by apply String_eqb_empty, negb_true_iff. }
  unfold combined_segment in Hx.
  destruct (foldl insert_entry ∅ es !! cs_segment_id x) as [ad|] eqn:Had; [|done].
  simpl in Hx.
  destruct (foldl insert_entry ∅ (omap content_entry content) !! cs_segment_id x)
    as [cd|] eqn:Hcd; [|done].
  simpl in Hx. injection Hx as Hx'.
  exists es, ad, cd. split; [done|].
  split; [by apply foldl_insert_entry_elem|].
  split; [by apply foldl_insert_entry_elem|].
  split; [exact (eq_sym (f_equal audioBase64 Hx'))|].
  split; [exact (eq_sym (f_equal cs_narration Hx'))|].
  split; [exact (eq_sym (f_equal imageUrl Hx'))|].
  exact (eq_sym (f_equal cs_duration Hx')).
Qed.

(** X1. Every segment of the merge output pairs one record of the audio
    list with one record of the content list that have its identifier:
    its audio is that audio record's string, or the recombination of its
    chunks, and is not empty; its narration (empty when missing), image
    and duration are those of the content record. *)
Theorem merged_segment_pairs_records (audio content : list SegmentRecord)
    (out : list CombinedSegment) (x : CombinedSegment) :
  merge_segments audio content = Ok out -> x ∈ out ->
  exists seg_a seg_c,
    seg_a ∈ audio /\ seg_c ∈ content /\
    segment_id seg_a = Some (cs_segment_id x) /\
    segment_id seg_c = Some (cs_segment_id x) /\
    (audio_base64 seg_a = AudioStr (audioBase64 x) \/
     exists chunks, audio_base64 seg_a = AudioChunks chunks /\
                    combine_chunks chunks = Ok (audioBase64 x)) /\
    audioBase64 x <> "" /\
    cs_narration x = default "" (narration seg_c) /\
    imageUrl x = image_url seg_c /\
    cs_duration x = duration seg_c.
Proof.
  intros Hm Hx.
  destruct (elem_of_merge_segments audio content out x Hm Hx)
    as (Hne & es & ad & cd & Hes & Had & Hcd & Ha & Hn & Hi & Hd).
  destruct (audio_entries_elem audio es _ Hes Had) as (seg_a & Hina & Hea).
  apply list_elem_of_omap in Hcd as (seg_c & Hinc & Hec).
  exists seg_a, seg_c. split; [done|]. split; [done|].
  pose proof (audio_entry_key _ _ _ Hea) as Hida.
  unfold content_entry in Hec.
  destruct (segment_id seg_c) as [sid|] eqn:Hidc; [|done].
  simpl in Hec. inversion Hec; subst sid cd. clear Hec.
  split; [done|]. split; [done|].
  unfold audio_entry in Hea. rewrite Hida in Hea.
  destruct (stored_audio (audio_base64 seg_a)) as [[s|]|] eqn:Hs; try done.
  simpl in Hea. inversion Hea; subst ad. simpl in Ha. subst s.
  split; [by apply stored_audio_cases|]. by repeat split.
Qed.

Lemma merged_segment_pairs_records_witness :
  exists seg_a seg_c,
    seg_a ∈ [audio_seg 7 (AudioChunks ["QQ=="; "Qg=="])] /\
    seg_c ∈ [content_seg 7 "seven"] /\
    segment_id seg_a = Some 7%Z /\
    segment_id seg_c = Some 7%Z /\
    (audio_base64 seg_a = AudioStr "QUI=" \/
     exists chunks, audio_base64 seg_a = AudioChunks chunks /\
                    combine_chunks chunks = Ok "QUI=") /\
    "QUI=" <> "" /\
    "seven" = default "" (narration seg_c) /\
    None = image_url seg_c /\
    None = duration seg_c.
Proof.
  apply (merged_segment_pairs_records
           [audio_seg 7 (AudioChunks ["QQ=="; "Qg=="])] [content_seg 7 "seven"]
           [ {| cs_segment_id := 7; audioBase64 := "QUI="; imageUrl := None;
                cs_narration := "seven"; cs_duration := None |} ]
           {| cs_segment_id := 7; audioBase64 := "QUI="; imageUrl := None;
              cs_narration := "seven"; cs_duration := None |}).
  - vm_compute. reflexivity.
  - apply list_elem_of_here.
Defined.

(** ** Successful lesson responses *)

Lemma detect_roles_parsed p0 p1 s0 s1 roles :
  detect_roles p0 p1 s0 s1 = Some roles ->
  (audio_parsed roles = p0 /\ content_parsed roles = p1 /\
   audio_segments roles = s0 /\ content_segments roles = s1) \/
  (audio_parsed roles = p1 /\ content_parsed roles = p0 /\
   audio_segments roles = s1 /\ content_segments roles = s0).
Proof.
  unfold detect_roles. cbv zeta.
  destruct (has_audio_base64 s0), (has_audio_base64 s1); simpl;
    intros H; inversion H; simpl; auto.
Qed.

Lemma check_segments_error segs idx r :
  check_segments segs idx = Some r -> exists err, r = JSONResponse 500 err.
Proof.
  unfold check_segments. destruct segs as [|l].
  - intros H. inversion H. by eexists.
  - destruct (length l =? 0)%nat; [|done]. intros H. inversion H. by eexists.
Qed.

Lemma validate_segments_error l r :
  validate_segments l = Some r -> exists err, r = JSONResponse 500 err.
Proof.
  induction l as [|[segs idx] l IH]; simpl; [done|].
  destruct (check_segments segs idx) as [r'|] eqn:Hc; [|done].
  intros H. inversion H; subst r'. by eapply check_segments_error.
Qed.

Lemma check_segments_None segs idx :
  check_segments segs idx = None <->
  exists l, segs = SegmentsList l /\ l <> [].
Proof.
  unfold check_segments. destruct segs as [|l].
  - split; [done|]. by intros (l & H & _).
  - destruct l as [|seg l]; simpl.
    + split; [done|]. intros (l & H & Hne). inversion H. by subst.
    + split; [|done]. intros _. by eexists.
Qed.

Lemma generate_lesson_Success p0 p1 userInput body :
  generate_lesson p0 p1 userInput = Success body ->
  exists roles,
    validate_segments [(get_segments p0, 0%nat); (get_segments p1, 1%nat)] = None /\
    detect_roles p0 p1 (segments_list (get_segments p0))
      (segments_list (get_segments p1)) = Some roles /\
    merge_segments (audio_segments roles) (content_segments roles) =
      Ok (ld_segments body) /\
    ld_segments body <> [] /\
    ld_topic body = lesson_topic roles userInput.
Proof.
  unfold generate_lesson. cbv zeta.
  destruct (validate_segments _) as [r|] eqn:Hv.
  { intros ->. by destruct (validate_segments_error _ _ Hv). }
  destruct (detect_roles _ _ _ _) as [roles|] eqn:Hr; [|done].
  destruct (merge_segments _ _) as [valid_segments|] eqn:Hm; [|done].
  destruct valid_segments as [|x valid_segments]; simpl; [done|].
  intros H. inversion H. simpl. by exists roles.
Qed.

(** X2. A successful lesson response has at least one segment; every
    segment has non-empty audio, and the segment identifiers are in
    strictly ascending order, so no identifier occurs twice. *)
Theorem lesson_response_segments_valid (parsed_result0 parsed_result1 : ParsedOutput)
    (userInput : string) (body : LessonData) :
  generate_lesson parsed_result0 parsed_result1 userInput = Success body ->
  ld_segments body <> [] /\
  Forall (fun x => audioBase64 x <> "") (ld_segments body) /\
  StronglySorted Z.lt (cs_segment_id <$> ld_segments body) /\
  NoDup (cs_segment_id <$> ld_segments body).
Proof.
  intros H.
  destruct (generate_lesson_Success _ _ _ _ H) as (roles & _ & _ & Hm & Hne & _).
  pose proof (merge_segments_sorted _ _ _ Hm) as Hs.
  split; [done|]. split; [|split; [done|]].
  - apply Forall_forall. intros x Hx.
    by destruct (elem_of_merge_segments _ _ _ x Hm Hx).
  - clear -Hs. induction Hs as [|k l Hl IH Hk]; constructor; [|done].
    intros Hin. rewrite Forall_forall in Hk. specialize (Hk k Hin). lia.
Qed.

Lemma lesson_response_segments_valid_witness :
  let body :=
    {| ld_topic := "topic";
       ld_segments :=
         [ {| cs_segment_id := 1; audioBase64 := "QQ=="; imageUrl := None;
              cs_narration := "one"; cs_duration := None |};
           {| cs_segment_id := 2; audioBase64 := "QkM="; imageUrl := None;
              cs_narration := "two"; cs_duration := None |} ] |} in
  ld_segments body <> [] /\
  Forall (fun x => audioBase64 x <> "") (ld_segments body) /\
  StronglySorted Z.lt (cs_segment_id <$> ld_segments body) /\
  NoDup (cs_segment_id <$> ld_segments body).
Proof.
  apply (lesson_response_segments_valid sample_content
           (parsed_of [audio_seg 2 (AudioChunks ["Qg=="; "Qw=="]);
                       audio_seg 1 (AudioStr "QQ==")])
           "topic").
  vm_compute. reflexivity.
Defined.

(** X3. The topic of a successful lesson response is the user input
    when neither parsed output has a non-empty topic, and it is empty
    only when the user input is empty. *)
Theorem lesson_topic_falls_back_to_user_input (parsed_result0 parsed_result1 : ParsedOutput)
    (userInput : string) (body : LessonData) :
  generate_lesson parsed_result0 parsed_result1 userInput = Success body ->
  (truthy_str (topic parsed_result0) = false ->
   truthy_str (topic parsed_result1) = false ->
   ld_topic body = userInput) /\
  (ld_topic body = "" -> userInput = "").
Proof.
  intros H.
  destruct (generate_lesson_Success _ _ _ _ H) as (roles & _ & Hr & _ & _ & Ht).
  rewrite Ht. unfold lesson_topic.
  destruct (detect_roles_parsed _ _ _ _ _ Hr) as [(-> & -> & _)|(-> & -> & _)].
  - split.
    + by intros -> ->.
    + destruct (topic parsed_result0) as [t0|]; simpl.
      * destruct (String.eqb t0 "") eqn:E0; simpl.
        -- destruct (topic parsed_result1) as [t1|]; simpl; [|done].
           destruct (String.eqb t1 "") eqn:E1; simpl; [done|].
           intros ->. by rewrite String.eqb_refl in E1.
        -- intros ->. by rewrite String.eqb_refl in E0.
      * destruct (topic parsed_result1) as [t1|]; simpl; [|done].
        destruct (String.eqb t1 "") eqn:E1; simpl; [done|].
        intros ->. by rewrite String.eqb_refl in E1.
  - split.
    + by intros -> ->.
    + destruct (topic parsed_result1) as [t1|]; simpl.
      * destruct (String.eqb t1 "") eqn:E1; simpl.
        -- destruct (topic parsed_result0) as [t0|]; simpl; [|done].
           destruct (String.eqb t0 "") eqn:E0; simpl; [done|].
           intros ->. by rewrite String.eqb_refl in E0.
        -- intros ->. by rewrite String.eqb_refl in E1.
      * destruct (topic parsed_result0) as [t0|]; simpl; [|done].
        destruct (String.eqb t0 "") eqn:E0; simpl; [done|].
        intros ->. by rewrite String.eqb_refl in E0.
Qed.

Lemma lesson_topic_falls_back_to_user_input_witness :
  (truthy_str (topic sample_content) = false ->
   truthy_str (topic (parsed_of [audio_seg 1 (AudioStr "QQ==")])) = false ->
   "volcanoes" = "volcanoes") /\
  ("volcanoes" = "" -> "volcanoes" = "").
Proof.
  apply (lesson_topic_falls_back_to_user_input sample_content
           (parsed_of [audio_seg 1 (AudioStr "QQ==")]) "volcanoes"
           {| ld_topic := "volcanoes";
              ld_segments :=
                [ {| cs_segment_id := 1; audioBase64 := "QQ=="; imageUrl := None;
                     cs_narration := "one"; cs_duration := None |} ] |}).
  vm_compute. reflexivity.
Defined.

(** ** The order of the two results *)

Lemma check_segments_idx segs idx idx' :
  check_segments segs idx = None -> check_segments segs idx' = None.
Proof. rewrite !check_segments_None. done. Qed.

Lemma validate_segments_pair s0 s1 :
  validate_segments [(s0, 0%nat); (s1, 1%nat)] = None <->
  check_segments s0 0 = None /\ check_segments s1 1 = None.
Proof.
  simpl. destruct (check_segments s0 0); [by split; [|intros [? ?]]|].
  destruct (check_segments s1 1); by split; [|intros [? ?]].
Qed.

(** X4. When both [segments] arrays pass validation and exactly one of
    them has audio among its first five records, the response does not
    depend on which of the two result slots holds which output. *)
Theorem lesson_independent_of_result_order (parsed_result0 parsed_result1 : ParsedOutput)
    (userInput : string) :
  validate_segments [(get_segments parsed_result0, 0%nat);
                     (get_segments parsed_result1, 1%nat)] = None ->
  has_audio_base64 (segments_list (get_segments parsed_result0)) =
    negb (has_audio_base64 (segments_list (get_segments parsed_result1))) ->
  generate_lesson parsed_result1 parsed_result0 userInput =
  generate_lesson parsed_result0 parsed_result1 userInput.
Proof.
  intros Hv Ha.
  assert (validate_segments [(get_segments parsed_result1, 0%nat);
                             (get_segments parsed_result0, 1%nat)] = None) as Hv'.
  { apply validate_segments_pair in Hv as [H0 H1]. apply validate_segments_pair.
    split; eapply check_segments_idx; eassumption. }
  unfold generate_lesson. cbv zeta. rewrite Hv, Hv'.
  unfold detect_roles. cbv zeta. rewrite Ha.
  destruct (has_audio_base64 (segments_list (get_segments parsed_result1)));
    reflexivity.
Qed.

Lemma lesson_independent_of_result_order_witness :
  generate_lesson (parsed_of [audio_seg 1 (AudioStr "QQ==")]) sample_content "topic" =
  generate_lesson sample_content (parsed_of [audio_seg 1 (AudioStr "QQ==")]) "topic".
Proof.
  apply (lesson_independent_of_result_order sample_content
           (parsed_of [audio_seg 1 (AudioStr "QQ==")]) "topic"); reflexivity.
Defined.

(** ** Requests that cannot be served *)

Lemma has_audio_base64_false segs :
  Forall (fun seg => truthy_audio (audio_base64 seg) = false) (take 5 segs) ->
  has_audio_base64 segs = false.
Proof.
  unfold has_audio_base64. induction 1 as [|seg l Hseg _ IH]; simpl; [done|].
  by rewrite Hseg.
Qed.

(** X5. When both [segments] arrays pass validation and no record among
    the first five of either array has a non-empty [audio_base64], the
    request fails with the 500 "neither result contains audio_base64"
    response, whatever the later records carry. *)
Theorem no_audio_in_first_five_fails (parsed_result0 parsed_result1 : ParsedOutput)
    (userInput : string) :
  validate_segments [(get_segments parsed_result0, 0%nat);
                     (get_segments parsed_result1, 1%nat)] = None ->
  Forall (fun seg => truthy_audio (audio_base64 seg) = false)
    (take 5 (segments_list (get_segments parsed_result0))) ->
  Forall (fun seg => truthy_audio (audio_base64 seg) = false)
    (take 5 (segments_list (get_segments parsed_result1))) ->
  generate_lesson parsed_result0 parsed_result1 userInput =
  JSONResponse 500 NoAudioFound.
Proof.
  intros Hv H0 H1. unfold generate_lesson. cbv zeta. rewrite Hv.
  unfold detect_roles. cbv zeta.
  by rewrite (has_audio_base64_false _ H0), (has_audio_base64_false _ H1).
Qed.

Lemma no_audio_in_first_five_fails_witness :
  generate_lesson (parsed_of five_silent_then_audio) sample_content "topic" =
  JSONResponse 500 NoAudioFound.
Proof.
  apply (no_audio_in_first_five_fails (parsed_of five_silent_then_audio)
           sample_content "topic").
  - reflexivity.
  - repeat constructor.
  - repeat constructor.
Defined.

Lemma merge_segments_total audio content :
  (forall seg chunks c, seg ∈ audio -> audio_base64 seg = AudioChunks chunks ->
                        c ∈ chunks -> is_Ok (Base64.b64decode c)) ->
  is_Ok (merge_segments audio content).
Proof.
  intros Hall. rewrite merge_segments_entries.
  destruct (audio_entries_total audio) as [es ->]; [|by eexists].
  intros seg Hin. unfold audio_entry.
  destruct (segment_id seg); [|by eexists].
  destruct (stored_audio_total (audio_base64 seg)) as [o ->]; [|by eexists].
  intros chunks c. by apply Hall.
Qed.

(** X6. When the arrays pass validation, the roles are detected and
    every chunk decodes, but no identifier of the audio list is an
    identifier of the content list, the request fails with the 500 "No
    valid segments could be created" response. *)
Theorem disjoint_ids_give_no_valid_segments
    (parsed_result0 parsed_result1 : ParsedOutput) (userInput : string)
    (roles : Roles) :
  validate_segments [(get_segments parsed_result0, 0%nat);
                     (get_segments parsed_result1, 1%nat)] = None ->
  detect_roles parsed_result0 parsed_result1
    (segments_list (get_segments parsed_result0))
    (segments_list (get_segments parsed_result1)) = Some roles ->
  (forall seg chunks c,
     seg ∈ audio_segments roles -> audio_base64 seg = AudioChunks chunks ->
     c ∈ chunks -> is_Ok (Base64.b64decode c)) ->
  (forall sid, sid ∈ omap segment_id (audio_segments roles) ->
               sid ∉ omap segment_id (content_segments roles)) ->
  generate_lesson parsed_result0 parsed_result1 userInput =
  JSONResponse 500 NoValidSegments.
Proof.
  intros Hv Hr Hdec Hdisj. unfold generate_lesson. cbv zeta. rewrite Hv, Hr.
  destruct (merge_segments_total (audio_segments roles) (content_segments roles) Hdec)
    as [out Hm].
  rewrite Hm. destruct out as [|x out]; [done|]. exfalso.
  destruct (merge_segments_ids_subset _ _ _ (cs_segment_id x) Hm) as [Ha Hc].
  { rewrite fmap_cons. apply list_elem_of_here. }
  by apply (Hdisj _ Ha).
Qed.

Lemma disjoint_ids_give_no_valid_segments_witness :
  generate_lesson (parsed_of [audio_seg 10 (AudioStr "QQ==")]) sample_content "topic" =
  JSONResponse 500 NoValidSegments.
Proof.
  apply (disjoint_ids_give_no_valid_segments
           (parsed_of [audio_seg 10 (AudioStr "QQ==")]) sample_content "topic"
           {| audio_result_index := 0; content_result_index := 1;
              audio_segments := [audio_seg 10 (AudioStr "QQ==")];
              content_segments := segments_list (get_segments sample_content);
              audio_parsed := parsed_of [audio_seg 10 (AudioStr "QQ==")];
              content_parsed := sample_content |}).
  - reflexivity.
  - reflexivity.
  - intros seg chunks c Hin Ha. simpl in Hin.
    apply list_elem_of_singleton in Hin. subst seg. discriminate.
  - intros sid Ha Hc. simpl in Ha, Hc.
    apply list_elem_of_singleton in Ha. subst sid.
    apply elem_of_cons in Hc as [Hc|Hc]; [discriminate|].
    apply list_elem_of_singleton in Hc. discriminate.
Defined.

(** ** Records the merge ignores *)

Lemma audio_entry_skipped seg : reaches_audio_map seg = false -> audio_entry seg = Ok None.
Proof.
  unfold reaches_audio_map, has_segment_id, audio_entry, stored_audio.
  destruct (segment_id seg); [|done]. simpl. by intros ->.
Qed.

Lemma audio_entries_filter audio :
  audio_entries (List.filter reaches_audio_map audio) = audio_entries audio.
Proof.
  induction audio as [|seg audio IH]; [done|]. simpl.
  destruct (reaches_audio_map seg) eqn:E.
  - cbn [audio_entries]. by rewrite IH.
  - rewrite IH, (audio_entry_skipped seg E). simpl.
    by destruct (audio_entries audio).
Qed.

Lemma omap_cons_match {A B} (f : A -> option B) (x : A) (l : list A) :
  omap f (x :: l) = match f x with
                    | Some y => y :: omap f l
                    | None => omap f l
                    end.
Proof. reflexivity. Qed.

Lemma content_entries_filter content :
  omap content_entry (List.filter has_segment_id content) = omap content_entry content.
Proof.
  induction content as [|seg content IH]; [done|].
  cbn [List.filter]. destruct (has_segment_id seg) eqn:E.
  - by rewrite !omap_cons_match, IH.
  - rewrite omap_cons_match, IH. unfold has_segment_id in E.
    unfold content_entry at 2. by destruct (segment_id seg).
Qed.

(** X7. Records without a [segment_id], and audio records whose
    [audio_base64] is empty or missing, have no effect on the merge:
    removing them from the input lists gives the same result, be it an
    output or an exception. In particular a chunk of a record without
    [segment_id] is never decoded. *)
Theorem merge_ignores_unmapped_records (audio content : list SegmentRecord) :
  merge_segments (List.filter reaches_audio_map audio)
    (List.filter has_segment_id content) =
  merge_segments audio content.
Proof.
  by rewrite !merge_segments_entries, audio_entries_filter, content_entries_filter.
Qed.

(** ** More on the chunk combiner *)

Lemma decode_chunks_inv chunks : forall combined_binary r,
  decode_chunks chunks combined_binary = Ok r ->
  exists bs, Forall2 (fun c b => Base64.b64decode c = Ok b) chunks bs /\
             r = combined_binary ++ concat bs.
Proof.
  induction chunks as [|c chunks IH]; intros acc r; cbn [decode_chunks].
  - intros H. inversion H. exists []. split; [constructor|].
    simpl. by rewrite app_nil_r.
  - destruct (Base64.b64decode c) as [b|] eqn:Hc; [|done]. simpl.
    intros H. destruct (IH _ _ H) as (bs & Hall & ->).
    exists (b :: bs). split; [by constructor|].
    simpl. by rewrite app_assoc.
Qed.

Lemma combine_chunks_inv chunks s :
  combine_chunks chunks = Ok s ->
  exists bs, Forall2 (fun c b => Base64.b64decode c = Ok b) chunks bs /\
             s = Base64.b64encode (concat bs).
Proof.
  unfold combine_chunks.
  destruct (decode_chunks chunks []) as [r|] eqn:Hd; [|done]. simpl.
  intros H. inversion H. destruct (decode_chunks_inv _ _ _ Hd) as (bs & Hall & ->).
  by exists bs.
Qed.

Lemma decode_chunks_first_failure ok chunk rest e : forall bs combined_binary,
  Forall2 (fun c b => Base64.b64decode c = Ok b) ok bs ->
  Base64.b64decode chunk = Raise e ->
  decode_chunks (ok ++ chunk :: rest) combined_binary = Raise e.
Proof.
  induction ok as [|c ok IH]; intros bs acc Hall He.
  - simpl. by rewrite He.
  - apply Forall2_cons_inv_l in Hall as (b & bs' & Hc & Hall & ->).
    simpl. rewrite Hc. simpl. by eapply IH.
Qed.

(** X8. The combiner returns a string exactly when every chunk decodes;
    otherwise it raises the exception of the first chunk, in list order,
    that does not decode. *)
Theorem combine_chunks_fails_at_first_bad_chunk (chunks : list string) :
  (is_Ok (combine_chunks chunks) <->
   forall c, c ∈ chunks -> is_Ok (Base64.b64decode c)) /\
  (forall ok chunk rest bs e,
     chunks = ok ++ chunk :: rest ->
     Forall2 (fun c b => Base64.b64decode c = Ok b) ok bs ->
     Base64.b64decode chunk = Raise e ->
     combine_chunks chunks = Raise e).
Proof.
  split.
  - split.
    + intros [s Hs] c Hc.
      destruct (combine_chunks_inv _ _ Hs) as (bs & Hall & _).
      clear Hs. induction Hall as [|c' b cs bs Hc' Hall IH].
      * by apply elem_of_nil in Hc.
      * apply elem_of_cons in Hc as [->|Hc]; [by eexists|by apply IH].
    + intros Hall. unfold combine_chunks.
      destruct (decode_chunks_total chunks Hall []) as [b ->]. by eexists.
  - intros ok chunk rest bs e -> Hall He. unfold combine_chunks.
    by rewrite (decode_chunks_first_failure ok chunk rest e bs [] Hall He).
Qed.

Lemma combine_chunks_fails_at_first_bad_chunk_witness :
  combine_chunks ["QQ=="; "QQ="; "Q"] = Raise binascii_Error_incorrect_padding.
Proof.
  destruct (combine_chunks_fails_at_first_bad_chunk ["QQ=="; "QQ="; "Q"]) as [_ H].
  apply (H ["QQ=="] "QQ=" ["Q"] [[x41]] binascii_Error_incorrect_padding).
  - reflexivity.
  - repeat constructor.
  - reflexivity.
Defined.

(** X9. Combining is compositional: combining two chunk lists one
    after the other and then combining the two results gives the same
    string as combining the concatenated list at once; and combining the
    result of a combination alone gives it back. *)
Theorem combine_chunks_compositional (chunks1 chunks2 : list string) (s1 s2 : string) :
  combine_chunks chunks1 = Ok s1 ->
  combine_chunks chunks2 = Ok s2 ->
  combine_chunks (chunks1 ++ chunks2) = combine_chunks [s1; s2] /\
  is_Ok (combine_chunks (chunks1 ++ chunks2)) /\
  combine_chunks [s1] = Ok s1.
Proof.
  intros H1 H2.
  destruct (combine_chunks_inv _ _ H1) as (bs1 & Hall1 & ->).
  destruct (combine_chunks_inv _ _ H2) as (bs2 & Hall2 & ->).
  assert (combine_chunks (chunks1 ++ chunks2) =
          Ok (Base64.b64encode (concat bs1 ++ concat bs2))) as Hc.
  { rewrite (combine_chunks_concat (chunks1 ++ chunks2) (bs1 ++ bs2)).
    - by rewrite concat_app.
    - by apply Forall2_app. }
  split; [|split].
  - rewrite Hc.
    rewrite (combine_chunks_concat _ [concat bs1; concat bs2]).
    + simpl. by rewrite app_nil_r.
    + repeat constructor; apply b64decode_b64encode.
  - rewrite Hc. by eexists.
  - rewrite (combine_chunks_concat _ [concat bs1]).
    + simpl. by rewrite app_nil_r.
    + repeat constructor. apply b64decode_b64encode.
Qed.

Lemma combine_chunks_compositional_witness :
  combine_chunks (["QQ=="; "Qg=="] ++ ["Qw=="]) = combine_chunks ["QUI="; "Qw=="] /\
  is_Ok (combine_chunks (["QQ=="; "Qg=="] ++ ["Qw=="])) /\
  combine_chunks ["QUI="] = Ok "QUI=".
Proof.
  apply (combine_chunks_compositional ["QQ=="; "Qg=="] ["Qw=="] "QUI=" "Qw==");
    reflexivity.
Defined.

Lemma b2a_base64_length data :
  String.length (Base64.b2a_base64 data) = (4 * ((length data + 2) / 3))%nat.
Proof.
  induction data as [|a|a b|a b c rest IH] using list_ind3; try reflexivity.
  cbn [Base64.b2a_base64 String.length length]. rewrite IH.
  replace (S (S (S (length rest))) + 2)%nat with (length rest + 2 + 1 * 3)%nat by lia.
  rewrite Nat.div_add by lia. lia.
Qed.

(** X10. The string the combiner returns is plain ASCII, decodes to the
    concatenation, in list order, of the bytes the chunks decode to, and
    has four characters for every three of those bytes, rounded up: its
    length is [4 * ((n + 2) / 3)] for [n] combined bytes. *)
Theorem combine_chunks_output_length (chunks : list string) (s : string) :
  combine_chunks chunks = Ok s ->
  exists bs,
    Forall2 (fun c b => Base64.b64decode c = Ok b) chunks bs /\
    Base64.b64decode s = Ok (concat bs) /\
    String.length s = (4 * ((length (concat bs) + 2) / 3))%nat /\
    Base64.all_ascii s = true.
Proof.
  intros H. destruct (combine_chunks_inv _ _ H) as (bs & Hall & ->).
  exists bs. split; [done|]. split; [apply b64decode_b64encode|].
  split; [apply b2a_base64_length|apply all_ascii_b2a].
Qed.

Lemma combine_chunks_output_length_witness :
  exists bs,
    Forall2 (fun c b => Base64.b64decode c = Ok b) ["QUI="; "Q0Q="] bs /\
    Base64.b64decode "QUJDRA==" = Ok (concat bs) /\
    String.length "QUJDRA==" = (4 * ((length (concat bs) + 2) / 3))%nat /\
    Base64.all_ascii "QUJDRA==" = true.
Proof.
  apply (combine_chunks_output_length ["QUI="; "Q0Q="] "QUJDRA=="). reflexivity.
Defined.

(** ** The correct answer of a quiz question *)


Lemma list_index_None x l i : list_index x l i = None -> x ∉ l.
Proof.
  revert i. induction l as [|y l IH]; intros i; simpl.
  - intros _. apply not_elem_of_nil.
  - destruct (String.eqb y x) eqn:E; [done|]. intros H.
    apply not_elem_of_cons. split; [|by eapply IH].
    intros ->. by rewrite String.eqb_refl in E.
Qed.

Lemma list_index_first x pre post i :
  x ∉ pre -> list_index x (pre ++ x :: post) i = Some (i + length pre)%nat.
Proof.
  revert i. induction pre as [|y pre IH]; intros i Hx; simpl.
  - rewrite String.eqb_refl. f_equal. lia.
  - apply not_elem_of_cons in Hx as [Hne Hx].
    destruct (String.eqb y x) eqn:E.
    + apply String.eqb_eq in E. by subst.
    + rewrite IH by done. f_equal. lia.
Qed.





(** X12. An exact occurrence of the correct answer among the options
    wins: the index is the position of its first exact occurrence, also
    when an earlier option matches up to letter case. *)
Theorem exact_answer_match_comes_first (pre post : list string) (answer : string) :
  answer ∉ pre ->
  find_correct_answer_index (pre ++ answer :: post) answer = Z.of_nat (length pre).
Proof.
  intros H. unfold find_correct_answer_index.
  by rewrite (list_index_first answer pre post 0 H).
Qed.

Lemma exact_answer_match_comes_first_witness :
  find_correct_answer_index (["berlin"; "PARIS"] ++ "Berlin" :: ["Rome"]) "Berlin" =
  Z.of_nat (length ["berlin"; "PARIS"]).
Proof.
  apply (exact_answer_match_comes_first ["berlin"; "PARIS"] ["Rome"] "Berlin").
  intros H. apply elem_of_cons in H as [H|H]; [discriminate|].
  apply list_elem_of_singleton in H. discriminate.
Defined.

(** ** The quiz response *)

Lemma format_questions_from_length quiz_array : forall idx acc,
  length (format_questions_from idx quiz_array acc) =
  (length acc + length (List.filter resolvable quiz_array))%nat.
Proof.
  induction quiz_array as [|qd quiz_array IH]; intros idx acc;
    cbn [format_questions_from List.filter]; [simpl; lia|].
  rewrite IH, format_question_app, length_app.
  unfold formatted_question, resolvable.
  destruct (resolved_index qd =? -1)%Z; simpl; lia.
Qed.

Lemma filter_resolvable_nil quiz_array :
  List.filter resolvable quiz_array = [] <->
  Forall (fun qd => resolved_index qd = (-1)%Z) quiz_array.
Proof.
  induction quiz_array as [|qd quiz_array IH]; simpl.
  - split; [constructor|done].
  - unfold resolvable at 1. destruct (resolved_index qd =? -1)%Z eqn:E; simpl.
    + apply Z.eqb_eq in E. rewrite IH. split.
      * by constructor.
      * intros H. by apply Forall_cons in H as [_ H].
    + apply Z.eqb_neq in E. split; [done|].
      intros H. by apply Forall_cons in H as [H _].
Qed.

(** X13. A quiz response succeeds with as many questions as the quiz
    array has entries whose answer is resolved, at least one and at most
    the length of the array; it is the 500 "No valid questions" response
    exactly when the array is not empty and no entry is resolved. *)
Theorem quiz_response_counts_resolved_entries (quiz_array : list QuestionData) :
  (forall questions,
     generate_quiz (Some quiz_array) = Success questions ->
     questions <> [] /\
     length questions = length (List.filter resolvable quiz_array) /\
     (length questions <= length quiz_array)%nat) /\
  (generate_quiz (Some quiz_array) = JSONResponse 500 NoValidQuestions <->
   quiz_array <> [] /\
   Forall (fun qd => resolved_index qd = (-1)%Z) quiz_array).
Proof.
  pose proof (format_questions_from_length quiz_array 0 []) as Hlen.
  fold (format_questions quiz_array) in Hlen. simpl in Hlen.
  unfold generate_quiz. split.
  - intros questions.
    destruct (length quiz_array =? 0)%nat; [done|].
    destruct (length (format_questions quiz_array) =? 0)%nat eqn:E; [done|].
    intros H. inversion H; subst questions. apply Nat.eqb_neq in E.
    split; [by destruct (format_questions quiz_array)|].
    split; [done|]. rewrite Hlen. apply filter_length_le.
  - rewrite <- filter_resolvable_nil.
    destruct quiz_array as [|qd quiz_array]; [by split; [|intros [? _]]|].
    cbn [length Nat.eqb].
    destruct (length (format_questions (qd :: quiz_array)) =? 0)%nat eqn:E.
    + apply Nat.eqb_eq in E. rewrite Hlen in E. split; [|done].
      intros _. split; [done|]. by apply length_zero_iff_nil.
    + apply Nat.eqb_neq in E. rewrite Hlen in E. split; [done|].
      intros [_ H]. rewrite H in E. done.
Qed.

Lemma quiz_response_counts_resolved_entries_witness :
  [ {| question_id := 2; question_text := "Capital of Germany?";
       question_options := ["Paris"; "London"; "Berlin"];
       correctAnswer := 2 |} ] <> [] /\
  length [ {| question_id := 2; question_text := "Capital of Germany?";
              question_options := ["Paris"; "London"; "Berlin"];
              correctAnswer := 2 |} ] =
    length (List.filter resolvable sample_quiz) /\
  (length [ {| question_id := 2; question_text := "Capital of Germany?";
               question_options := ["Paris"; "London"; "Berlin"];
               correctAnswer := 2 |} ] <= length sample_quiz)%nat.
Proof.
  destruct (quiz_response_counts_resolved_entries sample_quiz) as [H _].
  apply H. reflexivity.
Defined.

(** ** Strings *)

Lemma string_app_nil_l (s : string) : "" +:+ s = s.
Proof. reflexivity. Qed.

Lemma string_app_cons (c : ascii) (s t : string) :
  String c s +:+ t = String c (s +:+ t).
Proof. reflexivity. Qed.

Lemma string_app_nil_r (s : string) : s +:+ "" = s.
Proof.
  induction s as [|c s IH]; [reflexivity|]. by rewrite string_app_cons, IH.
Qed.

Lemma string_app_assoc (s1 s2 s3 : string) : (s1 +:+ s2) +:+ s3 = s1 +:+ s2 +:+ s3.
Proof.
  induction s1 as [|c s1 IH]; [reflexivity|]. by rewrite !string_app_cons, IH.
Qed.

Lemma string_length_app (s1 s2 : string) :
  String.length (s1 +:+ s2) = (String.length s1 + String.length s2)%nat.
Proof.
  induction s1 as [|c s1 IH]; [reflexivity|]. rewrite string_app_cons. simpl.
  by rewrite IH.
Qed.

Lemma string_forall_app P (s1 s2 : string) :
  string_forall P (s1 +:+ s2) = string_forall P s1 && string_forall P s2.
Proof.
  induction s1 as [|c s1 IH]; [reflexivity|]. rewrite string_app_cons. simpl.
  by rewrite IH, andb_assoc.
Qed.

Lemma startswith_app (p s : string) : startswith (p +:+ s) p = true.
Proof.
  induction p as [|c p IH]; [reflexivity|]. rewrite string_app_cons. simpl.
  by rewrite Ascii.eqb_refl, IH.
Qed.

Lemma startswith_inv (s p : string) :
  startswith s p = true -> exists rest, s = p +:+ rest.
Proof.
  revert s. induction p as [|a p IH]; intros s; simpl.
  - intros _. by exists s.
  - destruct s as [|b s]; [done|]. intros H. apply andb_prop in H as [Hab H].
    apply Ascii.eqb_eq in Hab. subst b. destruct (IH s H) as [rest ->].
    by exists rest.
Qed.

Lemma slice_from_app (s1 s2 : string) : slice_from (String.length s1) (s1 +:+ s2) = s2.
Proof.
  induction s1 as [|c s1 IH]; [by destruct s2|]. by rewrite string_app_cons.
Qed.

(** Every string splits at every position up to its length. *)
Lemma slice_from_split (k : nat) (s : string) :
  (k <= String.length s)%nat ->
  exists pre, s = pre +:+ slice_from k s /\ String.length pre = k.
Proof.
  revert s. induction k as [|k IH]; intros s Hk.
  - exists "". by destruct s.
  - destruct s as [|c s]; simpl in *; [lia|].
    destruct (IH s) as (pre & Hs & Hlen); [lia|].
    exists (String c pre). rewrite string_app_cons. simpl.
    split; [by rewrite <- Hs|by rewrite Hlen].
Qed.

Lemma string_app_inv_length (a b c d : string) :
  a +:+ b = c +:+ d -> String.length a = String.length c -> a = c /\ b = d.
Proof.
  revert c. induction a as [|x a IH]; intros [|y c]; simpl; try done.
  rewrite !string_app_cons. intros H Hlen. inversion H; subst y.
  destruct (IH c) as [-> ->]; [done|lia|done].
Qed.

(** [find]: the lowest position of an occurrence, or [-1]. *)
Lemma find_from_spec (sub s : string) : forall i,
  (find_from sub s i = (-1)%Z /\
   forall pre post, s <> pre +:+ sub +:+ post) \/
  (exists pre post,
     s = pre +:+ sub +:+ post /\
     find_from sub s i = Z.of_nat (i + String.length pre) /\
     forall pre' post', s = pre' +:+ sub +:+ post' ->
                        (String.length pre <= String.length pre')%nat).
Proof.
  induction s as [|c s IH]; intros i.
  - cbn [find_from]. destruct (startswith "" sub) eqn:E.
    + right. destruct (startswith_inv _ _ E) as [rest Hrest].
      exists "", rest. split; [done|]. simpl. split; [f_equal; lia|].
      intros; lia.
    + left. split; [done|]. intros [|x pre] post H.
      * rewrite string_app_nil_l in H. rewrite H, startswith_app in E. done.
      * by rewrite string_app_cons in H.
  - cbn [find_from]. destruct (startswith (String c s) sub) eqn:E.
    + right. destruct (startswith_inv _ _ E) as [rest Hrest].
      exists "", rest. split; [done|]. simpl. split; [f_equal; lia|].
      intros; lia.
    + destruct (IH (S i)) as [[Hf Hno]|(pre & post & Hs & Hf & Hmin)].
      * left. split; [done|]. intros [|x pre] post H.
        -- rewrite string_app_nil_l in H. rewrite H, startswith_app in E. done.
        -- rewrite string_app_cons in H. inversion H. by eapply Hno.
      * right. exists (String c pre), post.
        split; [rewrite string_app_cons; by rewrite <- Hs|].
        split; [rewrite Hf; simpl; f_equal; lia|].
        intros [|x pre'] post' H.
        -- rewrite string_app_nil_l in H. rewrite H, startswith_app in E. done.
        -- rewrite string_app_cons in H. inversion H. simpl.
           apply le_n_S. by eapply Hmin.
Qed.

Lemma find_first_occurrence (s sub pre post : string) :
  s = pre +:+ sub +:+ post ->
  (forall pre' post', s = pre' +:+ sub +:+ post' ->
                      (String.length pre <= String.length pre')%nat) ->
  find s sub = Z.of_nat (String.length pre).
Proof.
  intros Hs Hmin. unfold find.
  destruct (find_from_spec sub s 0) as [[_ Hno]|(pre1 & post1 & Hs1 & Hf & Hmin1)].
  - by destruct (Hno pre post).
  - rewrite Hf. simpl. f_equal.
    apply Nat.le_antisymm; [by eapply Hmin1|by eapply Hmin].
Qed.

Lemma find_none (s sub : string) :
  find s sub = (-1)%Z -> forall pre post, s <> pre +:+ sub +:+ post.
Proof.
  unfold find. intros Hf.
  destruct (find_from_spec sub s 0) as [[_ Hno]|(pre & post & _ & Hf' & _)];
    [done|].
  rewrite Hf' in Hf. lia.
Qed.

(** [strip] *)
Lemma lstrip_head (s : string) :
  lstrip s = "" \/ exists c rest, lstrip s = String c rest /\ isspace c = false.
Proof.
  induction s as [|c s IH]; simpl; [by left|].
  destruct (isspace c) eqn:E; [done|]. right. by exists c, s.
Qed.

Lemma rstrip_cons (c : ascii) (s : string) :
  rstrip (String c s) =
  match rstrip s with
  | EmptyString => if isspace c then EmptyString else String c EmptyString
  | rest' => String c rest'
  end.
Proof. reflexivity. Qed.

Lemma rstrip_head (c : ascii) (s : string) :
  rstrip (String c s) = "" \/ rstrip (String c s) = String c (rstrip s).
Proof.
  rewrite rstrip_cons. destruct (rstrip s); [|by right].
  destruct (isspace c); [by left|by right].
Qed.

Lemma rstrip_idemp (s : string) : rstrip (rstrip s) = rstrip s.
Proof.
  induction s as [|c s IH]; [done|].
  rewrite (rstrip_cons c s). destruct (rstrip s) as [|c' s'] eqn:E.
  - destruct (isspace c) eqn:Ec; [done|]. rewrite rstrip_cons. simpl.
    by rewrite Ec.
  - rewrite rstrip_cons, IH. done.
Qed.

Lemma lstrip_id (c : ascii) (s : string) :
  isspace c = false -> lstrip (String c s) = String c s.
Proof. simpl. by intros ->. Qed.

Lemma strip_idemp (s : string) : strip (strip s) = strip s.
Proof.
  unfold strip.
  destruct (lstrip_head s) as [ -> | (c & rest & -> & Hc) ]; [done|].
  destruct (rstrip_head c rest) as [H|H]; rewrite H; [done|].
  rewrite (lstrip_id c _ Hc), <- H. apply rstrip_idemp.
Qed.

Lemma rstrip_no_space (s : string) :
  string_forall (fun c => negb (isspace c)) s = true -> rstrip s = s.
Proof.
  induction s as [|c s IH]; [done|]. cbn [string_forall].
  intros H. apply andb_prop in H as [Hc H]. specialize (IH H).
  apply negb_true_iff in Hc. rewrite rstrip_cons, IH, Hc. by destruct s.
Qed.

Lemma strip_no_space (s : string) :
  string_forall (fun c => negb (isspace c)) s = true -> strip s = s.
Proof.
  intros H. unfold strip. destruct s as [|c s]; [done|].
  pose proof H as H'. simpl in H'. apply andb_prop in H' as [Hc _].
  apply negb_true_iff in Hc. rewrite (lstrip_id c s Hc).
  by apply rstrip_no_space.
Qed.

(** ** The personalization context of a quiz *)

(** X14. The context taken from a Fastino answer never has leading or
    trailing white space. It is the stripped answer when the pattern
    does not occur in it, and otherwise the stripped text that follows
    the first occurrence of the pattern. *)
Theorem user_pref_context_follows_first_pattern (answer : string) :
  strip (extract_user_pref_context answer) = extract_user_pref_context answer /\
  ((forall pre post, answer <> pre +:+ context_pattern +:+ post) ->
   extract_user_pref_context answer = strip answer) /\
  (forall pre post,
     answer = pre +:+ context_pattern +:+ post ->
     (forall pre' post', answer = pre' +:+ context_pattern +:+ post' ->
                         (String.length pre <= String.length pre')%nat) ->
     extract_user_pref_context answer = strip post).
Proof.
  unfold extract_user_pref_context. cbv zeta. split; [|split].
  - destruct (find answer context_pattern =? -1)%Z; apply strip_idemp.
  - intros Hno. unfold find.
    destruct (find_from_spec context_pattern answer 0)
      as [[-> _]|(pre & post & Hs & _)]; [done|].
    by destruct (Hno pre post).
  - intros pre post Hs Hmin.
    rewrite (find_first_occurrence answer context_pattern pre post Hs Hmin).
    destruct (Z.of_nat (String.length pre) =? -1)%Z eqn:E;
      [apply Z.eqb_eq in E; lia|].
    rewrite Nat2Z.id, Hs, <- string_length_app, <- string_app_assoc.
    by rewrite slice_from_app.
Qed.

Lemma user_pref_context_follows_first_pattern_witness :
  extract_user_pref_context ("Summary. " +:+ context_pattern +:+ " Struggles with dates. ") =
  strip " Struggles with dates. ".
Proof.
  destruct (user_pref_context_follows_first_pattern
              ("Summary. " +:+ context_pattern +:+ " Struggles with dates. "))
    as (_ & _ & H).
  apply (H "Summary. " " Struggles with dates. "); [reflexivity|].
  intros pre' post' Hs. destruct (Nat.le_gt_cases 9 (String.length pre')) as [Hle|Hlt];
    [exact Hle|exfalso].
  do 9 (destruct pre' as [|? pre']; [vm_compute in Hs; discriminate|]).
  simpl in Hlt. lia.
Defined.

(** ** The quiz text inside a code fence *)

Lemma match_group_unfold (s : string) :
  match_group s =
  if startswith s fence_close then Some EmptyString
  else match s with
       | EmptyString => None
       | String c rest => String c <$> match_group rest
       end.
Proof. by destruct s. Qed.

Lemma search_fence_unfold (s : string) :
  search_fence s =
  match match_fence_at s with
  | Some g => Some g
  | None => match s with
            | EmptyString => None
            | String _ rest => search_fence rest
            end
  end.
Proof. by destruct s. Qed.

Lemma match_group_body (body post : string) :
  (forall a b, body <> a +:+ fence_close +:+ b) ->
  match_group (body +:+ fence_close +:+ post) = Some body.
Proof.
  induction body as [|c r IH]; intros Hno.
  - rewrite string_app_nil_l, match_group_unfold. by rewrite startswith_app.
  - rewrite string_app_cons, match_group_unfold.
    destruct (startswith (String c (r +:+ fence_close +:+ post)) fence_close) eqn:E.
    + exfalso. apply startswith_inv in E as [rest' E].
      vm_compute in E. destruct r as [|c1 [|c2 [|c3 r']]];
        vm_compute in E; try discriminate.
      injection E as -> -> -> -> _.
      by apply (Hno "" r').
    + rewrite IH; [done|]. intros a b ->.
      by apply (Hno (String c a) b).
Qed.

Lemma search_fence_none (s : string) :
  (forall pre post, s <> pre +:+ fence_open +:+ post) -> search_fence s = None.
Proof.
  induction s as [|c s IH]; intros Hno.
  - reflexivity.
  - rewrite search_fence_unfold. unfold match_fence_at.
    destruct (startswith (String c s) fence_open) eqn:E.
    + apply startswith_inv in E as [rest E]. by destruct (Hno "" rest).
    + apply IH. intros pre post ->. by apply (Hno (String c pre) post).
Qed.

Lemma search_fence_skip (pre rest : string) :
  string_forall (fun x => negb (Ascii.eqb x "`"%char)) pre = true ->
  is_Some (match_fence_at rest) ->
  search_fence (pre +:+ rest) = match_fence_at rest.
Proof.
  induction pre as [|x pre IH]; intros Hpre [g Hg].
  - rewrite string_app_nil_l, search_fence_unfold. by rewrite Hg.
  - cbn [string_forall] in Hpre. apply andb_prop in Hpre as [Hx Hpre].
    rewrite string_app_cons, search_fence_unfold. unfold match_fence_at at 1.
    assert (startswith (String x (pre +:+ rest)) fence_open = false) as ->.
    { unfold fence_open. cbn [startswith]. apply negb_true_iff in Hx.
      rewrite Ascii.eqb_sym. by rewrite Hx. }
    apply IH; [done|by exists g].
Qed.

Lemma isspace_newline (c : ascii) : isspace c = false -> Ascii.eqb c "010"%char = false.
Proof.
  intros H. destruct (Ascii.eqb c "010"%char) eqn:E; [|done].
  apply Ascii.eqb_eq in E. subst c. vm_compute in H. discriminate.
Qed.

Lemma match_fence_at_block (body post : string) (c : ascii) (rest : string) :
  body = String c rest -> isspace c = false ->
  (forall a b, body <> a +:+ fence_close +:+ b) ->
  match_fence_at (fence_open +:+ newline +:+ body +:+ fence_close +:+ post) = Some body.
Proof.
  intros Hbody Hc Hno. unfold match_fence_at.
  rewrite startswith_app, slice_from_app.
  pose proof (match_group_body body post Hno) as Hg. subst body.
  unfold newline. rewrite !string_app_cons, string_app_nil_l.
  rewrite string_app_cons in Hg.
  cbn [match_space_group]. change (isspace "010"%char) with true. cbv iota.
  rewrite Hc. unfold match_newline_group at 1. rewrite (isspace_newline c Hc).
  unfold match_newline_group. by rewrite Ascii.eqb_refl.
Qed.

(** X15. When the result text holds, after text without a backquote, a
    block that opens with the json fence and a newline and closes with a
    newline and a fence, and the body starts with a character that is
    not white space and contains no newline followed by a fence, the
    quiz text is the body, stripped. *)
Theorem quiz_json_taken_from_fence (pre body post : string) (c : ascii) (rest : string) :
  string_forall (fun x => negb (Ascii.eqb x "`"%char)) pre = true ->
  body = String c rest ->
  isspace c = false ->
  (forall a b, body <> a +:+ fence_close +:+ b) ->
  extract_quiz_json_str
    (pre +:+ fence_open +:+ newline +:+ body +:+ fence_close +:+ post) =
  strip body.
Proof.
  intros Hpre Hbody Hc Hno. unfold extract_quiz_json_str.
  pose proof (match_fence_at_block body post c rest Hbody Hc Hno) as Hm.
  rewrite (search_fence_skip pre _ Hpre); [|by rewrite Hm].
  by rewrite Hm.
Qed.

Lemma quiz_json_taken_from_fence_witness :
  extract_quiz_json_str
    ("Here is the quiz: " +:+ fence_open +:+ newline +:+
     ("{" +:+ newline +:+ "  }  ") +:+ fence_close +:+ " Enjoy") =
  strip ("{" +:+ newline +:+ "  }  ").
Proof.
  apply (quiz_json_taken_from_fence "Here is the quiz: "
           ("{" +:+ newline +:+ "  }  ") " Enjoy" "{"%char (newline +:+ "  }  ")).
  - reflexivity.
  - reflexivity.
  - reflexivity.
  - apply find_none. reflexivity.
Defined.

(** X16. When the json fence does not occur in the result text, the
    quiz text is the whole result, stripped; and in every case the quiz
    text has no leading or trailing white space. *)
Theorem quiz_json_without_fence (result_value : string) :
  strip (extract_quiz_json_str result_value) = extract_quiz_json_str result_value /\
  ((forall pre post, result_value <> pre +:+ fence_open +:+ post) ->
   extract_quiz_json_str result_value = strip result_value).
Proof.
  unfold extract_quiz_json_str. split.
  - destruct (search_fence result_value); apply strip_idemp.
  - intros Hno. by rewrite (search_fence_none _ Hno).
Qed.

(** ** [test_audio.py]: what is written for a segment *)

Lemma table_b2a_payload_char (n : N) : payload_char (Base64.table_b2a_base64 n) = true.
Proof.
  destruct (N.lt_ge_cases n 64) as [Hlt|Hge].
  - apply (forall_below payload_sextet 64); [vm_compute; reflexivity|done].
  - unfold Base64.table_b2a_base64. rewrite nth_overflow; [reflexivity|].
    change (length Base64.alphabet) with 64%nat. lia.
Qed.

Lemma b2a_base64_payload_chars (data : list byte) :
  string_forall payload_char (Base64.b2a_base64 data) = true.
Proof.
  induction data as [|a|a b|a b c rest IH] using list_ind3.
  - reflexivity.
  - cbn [Base64.b2a_base64 string_forall]. cbv zeta.
    by rewrite !table_b2a_payload_char.
  - cbn [Base64.b2a_base64 string_forall]. cbv zeta.
    by rewrite !table_b2a_payload_char.
  - cbn [Base64.b2a_base64 string_forall]. cbv zeta.
    by rewrite !table_b2a_payload_char, IH.
Qed.

Lemma string_forall_impl (P Q : ascii -> bool) (s : string) :
  (forall c, P c = true -> Q c = true) ->
  string_forall P s = true -> string_forall Q s = true.
Proof.
  intros HPQ. induction s as [|c s IH]; simpl; [done|].
  intros H. apply andb_prop in H as [Hc H]. by rewrite (HPQ c Hc), IH.
Qed.

Lemma split_on_none (sep : ascii) (s : string) :
  string_forall (fun c => negb (Ascii.eqb c sep)) s = true -> split_on sep s = [s].
Proof.
  induction s as [|c s IH]; simpl; [done|].
  intros H. apply andb_prop in H as [Hc H]. apply negb_true_iff in Hc.
  by rewrite Hc, (IH H).
Qed.

Lemma split_on_first (sep : ascii) (a b : string) :
  string_forall (fun c => negb (Ascii.eqb c sep)) a = true ->
  split_on sep (a +:+ String sep b) = a :: split_on sep b.
Proof.
  induction a as [|c a IH]; intros H.
  - rewrite string_app_nil_l. simpl. by rewrite Ascii.eqb_refl.
  - cbn [string_forall] in H. apply andb_prop in H as [Hc H].
    apply negb_true_iff in Hc. rewrite string_app_cons. cbn [split_on].
    by rewrite Hc, (IH H).
Qed.

Lemma not_startswith_data (s : string) :
  string_forall (fun c => negb (Ascii.eqb c ":"%char)) s = true ->
  startswith s "data:" = false.
Proof.
  intros H. destruct (startswith s "data:") eqn:E; [|done].
  apply startswith_inv in E as [rest ->].
  rewrite string_forall_app in H. vm_compute in H. discriminate.
Qed.

Lemma decode_plain_payload (data : list byte) :
  Base64.b64decode (strip (Base64.b64encode data)) = Ok data.
Proof.
  rewrite strip_no_space; [apply b64decode_b64encode|].
  apply (string_forall_impl payload_char); [|apply b2a_base64_payload_chars].
  intros c Hc. unfold payload_char in Hc.
  apply andb_prop in Hc as [Hc _]. by apply andb_prop in Hc as [Hc _].
Qed.

(** X17. Decoding inverts encoding through the script: for the base64
    encoding of any bytes, given as it is or behind a data-URI prefix
    whose media type holds no comma, the function writes exactly those
    bytes. *)
Theorem decode_audio_base64_round_trip (mime : string) (data : list byte) :
  string_forall (fun c => negb (Ascii.eqb c ","%char)) mime = true ->
  decode_audio_base64
    (ArgStr ("data:" +:+ mime +:+ "," +:+ Base64.b64encode data)) = Some data /\
  decode_audio_base64 (ArgStr (Base64.b64encode data)) = Some data.
Proof.
  intros Hmime.
  pose proof (b2a_base64_payload_chars data) as Hchars.
  fold (Base64.b64encode data) in Hchars.
  split.
  - unfold decode_audio_base64. cbv zeta. rewrite startswith_app.
    rewrite <- string_app_assoc.
    change ("," +:+ Base64.b64encode data)
      with (String ","%char (Base64.b64encode data)).
    rewrite split_on_first.
    + rewrite split_on_none.
      * simpl. by rewrite decode_plain_payload.
      * apply (string_forall_impl payload_char); [|done].
        intros c Hc. unfold payload_char in Hc.
        apply andb_prop in Hc as [Hc _]. by apply andb_prop in Hc as [_ Hc].
    + rewrite string_forall_app. by rewrite Hmime.
  - unfold decode_audio_base64. cbv zeta.
    rewrite not_startswith_data.
    + by rewrite decode_plain_payload.
    + apply (string_forall_impl payload_char); [|done].
      intros c Hc. unfold payload_char in Hc. by apply andb_prop in Hc as [_ Hc].
Qed.

Lemma decode_audio_base64_round_trip_witness :
  decode_audio_base64
    (ArgStr ("data:" +:+ "audio/mpeg;base64" +:+ "," +:+
             Base64.b64encode [x49; x44; x33])) = Some [x49; x44; x33] /\
  decode_audio_base64 (ArgStr (Base64.b64encode [x49; x44; x33])) =
    Some [x49; x44; x33].
Proof.
  apply (decode_audio_base64_round_trip "audio/mpeg;base64" [x49; x44; x33]).
  reflexivity.
Defined.

(** X18. A string that starts with [data:] and holds no comma makes the
    function return [False] without writing anything: the split has no
    second piece. *)
Theorem decode_audio_base64_prefix_without_comma (s : string) :
  startswith s "data:" = true ->
  string_forall (fun c => negb (Ascii.eqb c ","%char)) s = true ->
  decode_audio_base64 (ArgStr s) = None.
Proof.
  intros Hs Hno. unfold decode_audio_base64. cbv zeta.
  by rewrite Hs, (split_on_none _ _ Hno).
Qed.

Lemma decode_audio_base64_prefix_without_comma_witness :
  decode_audio_base64 (ArgStr "data:audio/mpeg;base64;QUJD") = None.
Proof.
  apply (decode_audio_base64_prefix_without_comma "data:audio/mpeg;base64;QUJD");
    reflexivity.
Defined.

(** X19. For a list of chunks the function writes the concatenation, in
    list order, of the bytes the chunks decode to; if some chunk does
    not decode it returns [False] and writes nothing. This is the byte
    string that the [audioBase64] of the lesson handler encodes for the
    same chunks. *)
Theorem decode_audio_base64_chunks (chunks : list string) :
  (forall bs,
     Forall2 (fun c b => Base64.b64decode c = Ok b) chunks bs ->
     decode_audio_base64 (ArgList chunks) = Some (concat bs) /\
     (combine_chunks chunks ≫= Base64.b64decode) = Ok (concat bs)) /\
  (forall chunk e,
     chunk ∈ chunks -> Base64.b64decode chunk = Raise e ->
     decode_audio_base64 (ArgList chunks) = None).
Proof.
  split.
  - intros bs Hall. unfold decode_audio_base64, combine_audio_base64. cbv zeta.
    pose proof (combine_chunks_concat chunks bs Hall) as Hc.
    unfold combine_chunks in Hc. rewrite Hc.
    unfold combine_chunks.
    destruct (decode_chunks chunks []) as [b|]; [|done].
    simpl in *. inversion Hc as [Hc']. rewrite Hc'.
    by rewrite b64decode_b64encode.
  - intros chunk e Hin He. unfold decode_audio_base64, combine_audio_base64.
    cbv zeta. by destruct (decode_chunks_raise chunks chunk e Hin He []) as [e' ->].
Qed.

Lemma decode_audio_base64_chunks_witness :
  decode_audio_base64 (ArgList ["QQ=="; "Qg=="]) = Some (concat [[x41]; [x42]]) /\
  (combine_chunks ["QQ=="; "Qg=="] ≫= Base64.b64decode) = Ok (concat [[x41]; [x42]]).
Proof.
  destruct (decode_audio_base64_chunks ["QQ=="; "Qg=="]) as [H _].
  apply (H [[x41]; [x42]]). repeat constructor.
Defined.

Lemma quiz_json_without_fence_witness :
  extract_quiz_json_str "  {}  " = strip "  {}  ".
Proof.
  destruct (quiz_json_without_fence "  {}  ") as [_ H].
  apply H. apply find_none. reflexivity.
Defined.
